(** * SAFE: the chord and scale engine of the PianoXL keyboard

    A shallow embedding of the chord/scale derivation and cycling logic:
    the tables and builders of [utils/chord-utils.ts], the type
    declarations of [types/music] and the [PianoXL] component (its state,
    its mode-transition effect, its key-press handler and the imperative
    [adjustLastChordType] handle).

    Conventions of the embedding.
    - JavaScript numbers that hold pitches, offsets and indices are
      integers here ([Z]); the remainder operator [%] is [Z.rem], which
      like [%] takes the sign of the dividend.
    - String-literal union types are inductive types; the literal a
      constructor stands for is given by [noteStr] / [chordTypeStr].
    - Objects used as dictionaries keyed by chord-type strings are
      association lists in source order; the per-note cursor
      [chordTypeIndices] is a finite map.
    - A React handler reads the props and the state of the render it was
      created in; its [setX] calls only take effect for the next render.
      A handler is therefore a function from that snapshot to the next
      state and the list of calls made to the audio sink and callbacks. *)

From Stdlib Require Import ZArith List String Ascii Bool Lia.
From stdpp Require Import gmap strings finite pretty sorting.
Import ListNotations.
Local Open Scope Z_scope.

(** ** types/music *)

Inductive NoteName : Type :=
| NC | NCs | NDb | ND | NDs | NEb | NE | NF | NFs | NGb | NG | NGs | NAb
| NA | NAs | NBb | NB.

Definition noteStr (n : NoteName) : string :=
  match n with
  | NC => "C" | NCs => "C#" | NDb => "Db" | ND => "D" | NDs => "D#"
  | NEb => "Eb" | NE => "E" | NF => "F" | NFs => "F#" | NGb => "Gb"
  | NG => "G" | NGs => "G#" | NAb => "Ab" | NA => "A" | NAs => "A#"
  | NBb => "Bb" | NB => "B"
  end.

Inductive MusicMode : Type :=
| Free | Major | Minor | Dorian | Phrygian | Lydian | Mixolydian | Locrian.

Inductive InstrumentType : Type :=
| balafon | piano | rhodes | steel_drum | pluck | pad.

Inductive ChordType : Type :=
(* Basic triads *)
| ct_major | ct_minor | ct_dim | ct_augmented | ct_5
(* 7th chords *)
| ct_major7 | ct_minor7 | ct_7 | ct_dim7 | ct_m7b5 | ct_phi7 | ct_minorMajor7
(* 9th chords *)
| ct_major9 | ct_minor9 | ct_9 | ct_add9 | ct_7b9 | ct_7s9 | ct_dim9 | ct_aug9
(* 11th & 13th chords *)
| ct_11 | ct_m11 | ct_major11 | ct_13 | ct_13sus | ct_13b9 | ct_m11b5
(* Sus chords *)
| ct_sus2 | ct_sus4 | ct_7sus | ct_7sus4 | ct_9sus | ct_7sus2b9
(* 6th chords *)
| ct_6 | ct_minor6 | ct_69 | ct_m69
(* Altered/special chords *)
| ct_7s11 | ct_7b13 | ct_maj9s11 | ct_m9b5 | ct_9s11
| ct_maj7s5 | ct_7alt | ct_7b5 | ct_7s5
| ct_augmented7 | ct_augmentedMajor7.

(** The string literal of each member of the [ChordType] union. *)
Definition chordTypeStr (t : ChordType) : string :=
  match t with
  | ct_major => "major" | ct_minor => "minor" | ct_dim => "dim"
  | ct_augmented => "augmented" | ct_5 => "5"
  | ct_major7 => "major7" | ct_minor7 => "minor7" | ct_7 => "7"
  | ct_dim7 => "dim7" | ct_m7b5 => "m7b5" | ct_phi7 => "φ7"
  | ct_minorMajor7 => "minorMajor7"
  | ct_major9 => "major9" | ct_minor9 => "minor9" | ct_9 => "9"
  | ct_add9 => "add9" | ct_7b9 => "7b9" | ct_7s9 => "7#9"
  | ct_dim9 => "dim9" | ct_aug9 => "aug9"
  | ct_11 => "11" | ct_m11 => "m11" | ct_major11 => "major11"
  | ct_13 => "13" | ct_13sus => "13sus" | ct_13b9 => "13b9"
  | ct_m11b5 => "m11b5"
  | ct_sus2 => "sus2" | ct_sus4 => "sus4" | ct_7sus => "7sus"
  | ct_7sus4 => "7sus4" | ct_9sus => "9sus" | ct_7sus2b9 => "7sus2b9"
  | ct_6 => "6" | ct_minor6 => "minor6" | ct_69 => "69" | ct_m69 => "m69"
  | ct_7s11 => "7#11" | ct_7b13 => "7b13" | ct_maj9s11 => "maj9#11"
  | ct_m9b5 => "m9b5" | ct_9s11 => "9#11"
  | ct_maj7s5 => "maj7#5" | ct_7alt => "7alt" | ct_7b5 => "7b5"
  | ct_7s5 => "7#5"
  | ct_augmented7 => "augmented7" | ct_augmentedMajor7 => "augmentedMajor7"
  end.

Record Chord : Type := mkChord {
  root : NoteName;
  type : ChordType;
  notes : list Z;
  name : string
}.

Definition sharpToFlatMap (n : NoteName) : NoteName :=
  match n with
  | NC => NC | NCs => NDb | NDb => NDb | ND => ND | NDs => NEb
  | NEb => NEb | NE => NE | NF => NF | NFs => NGb | NGb => NGb
  | NG => NG | NGs => NAb | NAb => NAb | NA => NA | NAs => NBb
  | NBb => NBb | NB => NB
  end.

#[global] Instance NoteName_eq_dec : EqDecision NoteName.
Proof. solve_decision. Defined.

#[global] Instance MusicMode_eq_dec : EqDecision MusicMode.
Proof. solve_decision. Defined.

#[global] Instance InstrumentType_eq_dec : EqDecision InstrumentType.
Proof. solve_decision. Defined.

#[global] Instance ChordType_eq_dec : EqDecision ChordType.
Proof. solve_decision. Defined.

#[global] Instance Chord_eq_dec : EqDecision Chord.
Proof. solve_decision. Defined.

(** The seventeen spellings, in the order of the [NoteName] union. *)
Definition NoteName_enum : list NoteName :=
  [NC; NCs; NDb; ND; NDs; NEb; NE; NF; NFs; NGb; NG; NGs; NAb; NA; NAs;
   NBb; NB].

#[global, refine] Instance NoteName_finite : Finite NoteName :=
  {| enum := NoteName_enum |}.
Proof.
  - unfold NoteName_enum. compute_done.
  - intros []; unfold NoteName_enum; set_solver.
Defined.

(** ** utils/chord-utils.ts *)

Definition NOTE_VALUES (n : NoteName) : Z :=
  match n with
  | NC => 0 | NCs => 1 | NDb => 1 | ND => 2 | NDs => 3 | NEb => 3
  | NE => 4 | NF => 5 | NFs => 6 | NGb => 6 | NG => 7 | NGs => 8
  | NAb => 8 | NA => 9 | NAs => 10 | NBb => 10 | NB => 11
  end.

(** [Object.entries(NOTE_VALUES)]: the entries in insertion order. *)
Definition NOTE_VALUES_entries : list (NoteName * Z) :=
  map (fun n => (n, NOTE_VALUES n)) NoteName_enum.

Definition SCALE_PATTERNS (mode : MusicMode) : list Z :=
  match mode with
  | Major => [0; 2; 4; 5; 7; 9; 11]
  | Minor => [0; 2; 3; 5; 7; 8; 10]
  | Dorian => [0; 2; 3; 5; 7; 9; 10]
  | Phrygian => [0; 1; 3; 5; 7; 8; 10]
  | Lydian => [0; 2; 4; 6; 7; 9; 11]
  | Mixolydian => [0; 2; 4; 5; 7; 9; 10]
  | Locrian => [0; 1; 3; 5; 6; 8; 10]
  | Free => [0; 1; 2; 3; 4; 5; 6; 7; 8; 9; 10; 11]
  end.

(** The object literal [CHORD_PATTERNS], key by key as it is written in
    the source.  The key of the eleventh entry is the six-byte string
    the source file holds there; it differs from the literal ["φ7"] of
    the [ChordType] union, so no entry answers to [ct_phi7]. *)
Definition CHORD_PATTERNS : list (string * list Z) :=
  [ ("major", [0; 4; 7]);
    ("minor", [0; 3; 7]);
    ("dim", [0; 3; 6]);
    ("augmented", [0; 4; 8]);
    ("5", [0; 7]);
    ("major7", [0; 4; 7; 11]);
    ("minor7", [0; 3; 7; 10]);
    ("7", [0; 4; 7; 10]);
    ("dim7", [0; 3; 6; 9]);
    ("m7b5", [0; 3; 6; 10]);
    ("Ï†7", [0; 3; 6; 10]);
    ("minorMajor7", [0; 3; 7; 11]);
    ("major9", [0; 4; 7; 11; 14]);
    ("minor9", [0; 3; 7; 10; 14]);
    ("9", [0; 4; 7; 10; 14]);
    ("add9", [0; 4; 7; 14]);
    ("7b9", [0; 4; 7; 10; 13]);
    ("7#9", [0; 4; 7; 10; 15]);
    ("dim9", [0; 3; 6; 9; 14]);
    ("aug9", [0; 4; 8; 10; 14]);
    ("11", [0; 4; 7; 10; 14; 17]);
    ("m11", [0; 3; 7; 10; 14; 17]);
    ("major11", [0; 4; 7; 11; 14; 17]);
    ("13", [0; 4; 7; 10; 14; 21]);
    ("13sus", [0; 5; 7; 10; 14; 21]);
    ("13b9", [0; 4; 7; 10; 13; 21]);
    ("m11b5", [0; 3; 6; 10; 14; 17]);
    ("sus2", [0; 2; 7]);
    ("sus4", [0; 5; 7]);
    ("7sus", [0; 5; 7; 10]);
    ("7sus4", [0; 5; 7; 10]);
    ("9sus", [0; 5; 7; 10; 14]);
    ("7sus2b9", [0; 2; 7; 10; 13]);
    ("6", [0; 4; 7; 9]);
    ("minor6", [0; 3; 7; 9]);
    ("69", [0; 4; 7; 9; 14]);
    ("m69", [0; 3; 7; 9; 14]);
    ("7#11", [0; 4; 7; 10; 18]);
    ("7b13", [0; 4; 7; 10; 20]);
    ("maj9#11", [0; 4; 7; 11; 14; 18]);
    ("m9b5", [0; 3; 6; 10; 14]);
    ("9#11", [0; 4; 7; 10; 14; 18]);
    ("maj7#5", [0; 4; 8; 11]);
    ("7alt", [0; 4; 8; 10; 15]);
    ("7b5", [0; 4; 6; 10]);
    ("7#5", [0; 4; 8; 10]);
    ("augmented7", [0; 4; 8; 10]);
    ("augmentedMajor7", [0; 4; 8; 11]) ].

(** Property access [obj[key]] on an object literal: the value of the
    entry with that key, [None] for [undefined]. *)
Fixpoint prop_lookup {V : Type} (obj : list (string * V)) (key : string)
  : option V :=
  match obj with
  | [] => None
  | (k, v) :: rest => if String.eqb k key then Some v else prop_lookup rest key
  end.

(** [s.includes(c)] for a one-character needle. *)
Fixpoint includes_char (c : ascii) (s : string) : bool :=
  match s with
  | EmptyString => false
  | String c' s' => Ascii.eqb c' c || includes_char c s'
  end.

(** The [find] of [getScaleNotes]: the first entry of [NOTE_VALUES] with
    the given value whose name holds no ['b']. *)
Definition find_sharp_name (noteValue : Z) : option NoteName :=
  fst <$> List.find
    (fun e => (snd e =? noteValue) && negb (includes_char "b" (noteStr (fst e))))
    NOTE_VALUES_entries.

Definition getScaleNotes (root0 : NoteName) (mode : MusicMode)
  : list NoteName :=
  let rootValue := NOTE_VALUES root0 in
  let pattern := SCALE_PATTERNS mode in
  flat_map
    (fun interval =>
       let noteValue := Z.rem (rootValue + interval) 12 in
       match find_sharp_name noteValue with
       | Some note => [note]
       | None => []
       end)
    pattern.

Definition createChord (root0 : NoteName) (type0 : ChordType)
  : option Chord :=
  let rootValue := NOTE_VALUES root0 in
  match prop_lookup CHORD_PATTERNS (chordTypeStr type0) with
  | None => None
  | Some pattern =>
    Some {| root := root0;
            type := type0;
            notes := map (fun interval => rootValue + interval + 60) pattern;
            name := (noteStr root0 ++ chordTypeStr type0)%string |}
  end.

(** ** components/PianoXL *)

(** Array helpers with JavaScript's conventions: [arr[i]] is [undefined]
    ([None]) outside the array, [indexOf] answers [-1] for a missing
    element. *)
Definition arr_get {A : Type} (arr : list A) (i : Z) : option A :=
  if i <? 0 then None else arr !! Z.to_nat i.

Fixpoint indexOf_from {A : Type} `{EqDecision A} (arr : list A) (x : A) (i : Z)
  : Z :=
  match arr with
  | [] => -1
  | y :: rest => if decide (y = x) then i else indexOf_from rest x (i + 1)
  end.

Definition indexOf {A : Type} `{EqDecision A} (arr : list A) (x : A) : Z :=
  indexOf_from arr x 0.

Definition includes {A : Type} `{EqDecision A} (arr : list A) (x : A) : bool :=
  bool_decide (x ∈ arr).

Definition arr_length {A : Type} (arr : list A) : Z := Z.of_nat (length arr).

(** Full list of available chord types in preference order (for FREE
    mode). *)
Definition ALL_CHORD_TYPES : list ChordType :=
  [ ct_major; ct_minor; ct_dim; ct_augmented; ct_5;
    ct_major7; ct_minor7; ct_7; ct_dim7; ct_m7b5; ct_phi7; ct_minorMajor7;
    ct_major9; ct_minor9; ct_9; ct_add9; ct_7b9; ct_7s9; ct_dim9; ct_aug9;
    ct_11; ct_m11; ct_major11; ct_13; ct_13sus; ct_13b9; ct_m11b5;
    ct_sus2; ct_sus4; ct_7sus; ct_7sus4; ct_9sus; ct_7sus2b9;
    ct_6; ct_minor6; ct_69; ct_m69;
    ct_7s11; ct_7b13; ct_maj9s11; ct_m9b5; ct_9s11;
    ct_maj7s5; ct_7alt; ct_7b5; ct_7s5;
    ct_augmented7; ct_augmentedMajor7 ].

Definition MAJOR_SCALE_CHORDS : list (string * list ChordType) :=
  [ ("1", [ct_major; ct_major7; ct_major9; ct_add9]);
    ("2", [ct_minor; ct_minor7; ct_minor9]);
    ("3", [ct_minor; ct_minor7; ct_minor9]);
    ("4", [ct_major; ct_major7; ct_major9; ct_add9]);
    ("5", [ct_major; ct_7; ct_9]);
    ("6", [ct_minor; ct_minor7; ct_minor9]);
    ("7", [ct_dim; ct_dim7; ct_m7b5]) ].

Definition MINOR_SCALE_CHORDS : list (string * list ChordType) :=
  [ ("1", [ct_minor; ct_minor7; ct_minor9; ct_m11]);
    ("2", [ct_dim; ct_dim7; ct_m7b5]);
    ("3", [ct_major; ct_major7; ct_add9]);
    ("4", [ct_minor; ct_minor7; ct_minor9]);
    ("5", [ct_minor; ct_minor7; ct_minor9]);
    ("6", [ct_major; ct_major7; ct_add9]);
    ("7", [ct_major; ct_7; ct_9]) ].

(** The twelve sharp spellings, the array literal that the component
    writes out as [allNotes] and as [notes]. *)
Definition allNotes : list NoteName :=
  [NC; NCs; ND; NDs; NE; NF; NFs; NG; NGs; NA; NAs; NB].

Record PianoXLProps : Type := mkProps {
  selectedKey : NoteName;
  mode : MusicMode;
  octave : Z;
  inversion : Z;
  selectedSound : InstrumentType;
  useFlats : bool;
  selectedBassOffset : option Z
}.

Record PianoXLState : Type := mkState {
  scaleNotes : list NoteName;
  currentChord : option Chord;
  lastPressedNote : option NoteName;
  chordTypeIndices : gmap NoteName Z;
  prevMode : MusicMode
}.

(** The calls a handler makes to the audio sink ([utils/audio-utils.ts])
    and to the callbacks passed in the props. *)
Inductive Call : Type :=
| playChord (ns : list Z) (instrument : InstrumentType)
| stopChord
| playBassNote (note : Z)
| onChordChange (chord : option Chord)
| onScaleNotesChange (ns : list NoteName)
| onNoteSelect (note : NoteName).

#[global] Instance Call_eq_dec : EqDecision Call.
Proof. solve_decision. Defined.

Inductive Direction : Type := up | down.

(** The [useState] initialisers. *)
Definition initialState (p : PianoXLProps) : PianoXLState :=
  {| scaleNotes := [];
     currentChord := None;
     lastPressedNote := None;
     chordTypeIndices := ∅;
     prevMode := mode p |}.

Definition getBassNote (root0 : NoteName) (bassOffset : option Z) : string :=
  match bassOffset with
  | None => ""
  | Some off =>
    if off =? 0 then ""
    else
      let rootIndex := indexOf allNotes root0 in
      if rootIndex =? -1 then ""
      else
        let bassIndex := Z.rem (rootIndex + off) 12 in
        ("/" ++ match arr_get allNotes bassIndex with
                | Some n => noteStr n
                | None => "undefined"
                end)%string
  end.

(** The suffix that the [switch] of [getChordName] appends. *)
Definition chordSuffix (t : ChordType) : string :=
  match t with
  | ct_major => "" | ct_minor => "m" | ct_dim => "dim"
  | ct_augmented => "aug" | ct_5 => "5"
  | ct_major7 => "maj7" | ct_minor7 => "m7" | ct_7 => "7"
  | ct_dim7 => "dim7" | ct_m7b5 => "m7b5" | ct_phi7 => "φ7"
  | ct_minorMajor7 => "mMaj7"
  | ct_major9 => "maj9" | ct_minor9 => "m9" | ct_9 => "9"
  | ct_add9 => "add9" | ct_7b9 => "7b9" | ct_7s9 => "7#9"
  | ct_dim9 => "dim9" | ct_aug9 => "aug9"
  | ct_11 => "11" | ct_m11 => "m11" | ct_major11 => "maj11"
  | ct_13 => "13" | ct_13sus => "13sus" | ct_13b9 => "13b9"
  | ct_m11b5 => "m11b5"
  | ct_sus2 => "sus2" | ct_sus4 => "sus4" | ct_7sus => "7sus"
  | ct_7sus4 => "7sus4" | ct_9sus => "9sus" | ct_7sus2b9 => "7sus2b9"
  | ct_6 => "6" | ct_minor6 => "m6" | ct_69 => "69" | ct_m69 => "m69"
  | ct_7s11 => "7#11" | ct_7b13 => "7b13" | ct_maj9s11 => "maj9#11"
  | ct_m9b5 => "m9b5" | ct_9s11 => "9#11"
  | ct_maj7s5 => "maj7#5" | ct_7alt => "7alt" | ct_7b5 => "7b5"
  | ct_7s5 => "7#5"
  | ct_augmented7 => "aug7" | ct_augmentedMajor7 => "augMaj7"
  end.

(** One pass of an inversion loop.  The source mutates the array in
    place: [a[0] += 12; a.push(a.shift())] going up,
    [a[a.length - 1] -= 12; a.unshift(a.pop())] going down.  On the
    empty array JavaScript would produce [[NaN]]; no chord pattern is
    empty (see [CHORD_PATTERNS_nonempty]), so that case is given the
    empty list here. *)
Definition invertUp (ns : list Z) : list Z :=
  match ns with
  | [] => []
  | x :: rest => rest ++ [x + 12]
  end.

Definition invertDown (ns : list Z) : list Z :=
  match last ns with
  | None => []
  | Some x => (x - 12) :: removelast ns
  end.

Definition applyOctave (oct : Z) (ns : list Z) : list Z :=
  map (fun note => if oct =? 0 then note else note + 12 * oct) ns.

Definition applyInversion (inv : Z) (ns : list Z) : list Z :=
  if inv =? 0 then ns
  else Nat.iter (Z.abs_nat inv) (if 0 <? inv then invertUp else invertDown) ns.

Section Component.

Variable p : PianoXLProps.
Variable s : PianoXLState.

Definition convertNoteDisplay (note : NoteName) : NoteName :=
  if bool_decide (mode p = Free) && useFlats p then sharpToFlatMap note
  else note.

(** Get available chord types for a note based on scale degree. *)
Definition getAvailableChordTypes (note : NoteName) : list ChordType :=
  if bool_decide (mode p = Free) then ALL_CHORD_TYPES
  else if negb (includes (scaleNotes s) note) then []
  else
    let scaleIndex := indexOf (scaleNotes s) note in
    let scaleDegree := pretty (scaleIndex + 1) in
    if bool_decide (mode p = Minor)
    then default [] (prop_lookup MINOR_SCALE_CHORDS scaleDegree)
    else default [] (prop_lookup MAJOR_SCALE_CHORDS scaleDegree).

(** Get current chord type for a note. *)
Definition getCurrentChordType (note : NoteName) : ChordType :=
  if bool_decide (mode p = Free) then
    let currentIndex := default 0 (chordTypeIndices s !! note) in
    default ct_major (arr_get ALL_CHORD_TYPES currentIndex)
  else
    let availableTypes := getAvailableChordTypes note in
    let currentIndex := default 0 (chordTypeIndices s !! note) in
    if arr_length availableTypes =? 0 then ct_major
    else default ct_major
           (arr_get availableTypes
                    (Z.rem currentIndex (arr_length availableTypes))).

(** Get chord name for a note in the current scale. *)
Definition getChordName (note : NoteName) : string :=
  if negb (bool_decide (mode p = Free)) && negb (includes (scaleNotes s) note)
  then ""
  else
    let chordType := getCurrentChordType note in
    let name0 := (noteStr (convertNoteDisplay note) ++ chordSuffix chordType)%string in
    if bool_decide (lastPressedNote s = Some note)
       && bool_decide (selectedBassOffset p <> None)
    then (name0 ++ getBassNote note (selectedBassOffset p))%string
    else name0.

(** The bass branch of [handleKeyPress]: the calls it makes for a chord
    that [createChord] returned. *)
Definition bassCalls (note : NoteName) (chord : Chord) : list Call :=
  match selectedBassOffset p with
  | None => []
  | Some off =>
    if bool_decide (lastPressedNote s = Some note) then
      let rootIndex := indexOf allNotes note in
      if rootIndex =? -1 then []
      else if off =? 0 then
        match notes chord with
        | first :: _ => [playBassNote (first - 12)]
        | [] => []
        end
      else [playBassNote (48 + Z.rem (rootIndex + off) 12)]
    else []
  end.

(** Handle key press with octave and inversion. *)
Definition handleKeyPress (note : NoteName) : PianoXLState * list Call :=
  if negb (bool_decide (mode p = Free)) && negb (includes (scaleNotes s) note)
  then (s, [])
  else
    let chordType := getCurrentChordType note in
    match createChord note chordType with
    | None =>
      ({| scaleNotes := scaleNotes s;
          currentChord := currentChord s;
          lastPressedNote := Some note;
          chordTypeIndices := chordTypeIndices s;
          prevMode := prevMode s |}, [])
    | Some chord =>
      let modifiedNotes :=
        applyInversion (inversion p) (applyOctave (octave p) (notes chord)) in
      let chordName := getChordName note in
      let modifiedChord :=
        {| root := root chord; type := type chord;
           notes := modifiedNotes; name := chordName |} in
      ({| scaleNotes := scaleNotes s;
          currentChord := Some modifiedChord;
          lastPressedNote := Some note;
          chordTypeIndices := chordTypeIndices s;
          prevMode := prevMode s |},
       [playChord modifiedNotes (selectedSound p)]
         ++ bassCalls note chord
         ++ [onChordChange (Some modifiedChord); onNoteSelect note])
    end.

(** The imperative handle [adjustLastChordType]. *)
Definition adjustLastChordType (direction : Direction) : PianoXLState :=
  match lastPressedNote s with
  | None => s
  | Some lastNote =>
    let availableTypes :=
      if bool_decide (mode p = Free) then ALL_CHORD_TYPES
      else getAvailableChordTypes lastNote in
    if negb (bool_decide (mode p = Free))
       && negb (includes (scaleNotes s) lastNote)
    then s
    else if arr_length availableTypes =? 0 then s
    else
      let currentIndex := default 0 (chordTypeIndices s !! lastNote) in
      let newIndex :=
        match direction with
        | up => Z.rem (currentIndex + 1) (arr_length availableTypes)
        | down =>
          Z.rem (currentIndex - 1 + arr_length availableTypes)
                (arr_length availableTypes)
        end in
      {| scaleNotes := scaleNotes s;
         currentChord := currentChord s;
         lastPressedNote := lastPressedNote s;
         chordTypeIndices := <[lastNote := newIndex]> (chordTypeIndices s);
         prevMode := prevMode s |}
  end.

(** Entering FREE mode: notes outside the previous scale that have no
    entry yet get the major triad (index 0). *)
Definition addDefaults (indices : gmap NoteName Z) (newly : list NoteName)
  : gmap NoteName Z :=
  fold_left
    (fun updated note =>
       match updated !! note with
       | None => <[note := 0]> updated
       | Some _ => updated
       end)
    newly indices.

(** The effect that tracks mode changes; it runs after a render whose
    [selectedKey], [mode] or [prevMode] changed.  ([selectedKey] is a
    non-empty string, so the guard [if (selectedKey)] always passes.) *)
Definition modeEffect : PianoXLState * list Call :=
  let '(newScale, newIndices, calls) :=
    if bool_decide (mode p = Free) && negb (bool_decide (mode p = prevMode s))
    then
      let prevScaleNotes := getScaleNotes (selectedKey p) (prevMode s) in
      let newlyAvailableNotes :=
        List.filter (fun note => negb (includes prevScaleNotes note)) allNotes in
      (allNotes,
       if 0 <? arr_length newlyAvailableNotes
       then addDefaults (chordTypeIndices s) newlyAvailableNotes
       else chordTypeIndices s,
       [onScaleNotesChange allNotes])
    else if bool_decide (prevMode s = Free)
            && negb (bool_decide (mode p = Free))
    then
      let newScaleNotes := getScaleNotes (selectedKey p) (mode p) in
      (newScaleNotes, ∅, [onScaleNotesChange newScaleNotes])
    else if negb (bool_decide (mode p = prevMode s))
    then
      let newScaleNotes := getScaleNotes (selectedKey p) (mode p) in
      (newScaleNotes, ∅, [onScaleNotesChange newScaleNotes])
    else
      let newScaleNotes := getScaleNotes (selectedKey p) (mode p) in
      (newScaleNotes, chordTypeIndices s, [onScaleNotesChange newScaleNotes])
  in
  if negb (bool_decide (mode p = prevMode s))
  then
    ({| scaleNotes := newScale;
        currentChord := None;
        lastPressedNote := lastPressedNote s;
        chordTypeIndices := newIndices;
        prevMode := mode p |},
     calls ++ [onChordChange None])
  else
    ({| scaleNotes := newScale;
        currentChord := currentChord s;
        lastPressedNote := lastPressedNote s;
        chordTypeIndices := newIndices;
        prevMode := mode p |},
     calls).

End Component.

(** *** The [PianoKey] sub-component *)

Definition noteOfStr (str : string) : option NoteName :=
  List.find (fun n => String.eqb (noteStr n) str) NoteName_enum.

Definition isAtoG (c : ascii) : bool :=
  (65 <=? nat_of_ascii c)%nat && (nat_of_ascii c <=? 71)%nat.

(** [chordName.replace(/[A-G]#/g, match => sharpToFlatMap[match])]; a
    match that is no key of [sharpToFlatMap] is replaced by the text of
    [undefined]. *)
Fixpoint replaceSharps (str : string) : string :=
  match str with
  | EmptyString => EmptyString
  | String c rest =>
    match rest with
    | String "#" rest' =>
      if isAtoG c then
        (match noteOfStr (String c "#") with
         | Some n => noteStr (sharpToFlatMap n)
         | None => "undefined"
         end ++ replaceSharps rest')%string
      else String c (replaceSharps rest)
    | _ => String c (replaceSharps rest)
    end
  end.

Section PianoKey.

Variable p : PianoXLProps.
Variable s : PianoXLState.

Definition isInScale (note : NoteName) : bool :=
  if bool_decide (mode p = Free) then true else includes (scaleNotes s) note.

Definition displayChordName (note : NoteName) : string :=
  if bool_decide (mode p = Free) && useFlats p
  then replaceSharps (getChordName p s note)
  else getChordName p s note.

(** The text a key shows: nothing when the key is out of scale. *)
Definition keyLabel (note : NoteName) : option string :=
  if isInScale note then Some (displayChordName note) else None.

Definition onPressIn (note : NoteName) : PianoXLState * list Call :=
  if isInScale note then handleKeyPress p s note else (s, []).

Definition onPressOut : PianoXLState * list Call :=
  ({| scaleNotes := scaleNotes s;
      currentChord := None;
      lastPressedNote := lastPressedNote s;
      chordTypeIndices := chordTypeIndices s;
      prevMode := prevMode s |},
   [stopChord; onChordChange None]).

End PianoKey.

(** The component right after mounting: the initial state, then the
    first run of the mode effect. *)
Definition mounted (p : PianoXLProps) : PianoXLState :=
  fst (modeEffect p (initialState p)).

(** ** components/SettingsPanelXL *)

(** Helper for relative key calculation.  [notes[i]] is always defined
    here, the index being a remainder of a number that is at least 2 (see
    [getRelativeKey_defined]); the [None] of the inner match stands for
    the [undefined] key that cannot arise. *)
Definition getRelativeKey (currentKey : NoteName) (currentMode : MusicMode)
  : option (NoteName * MusicMode) :=
  if negb (bool_decide (currentMode = Major))
     && negb (bool_decide (currentMode = Minor))
  then None
  else
    let currentIndex := indexOf allNotes currentKey in
    if bool_decide (currentMode = Minor) then
      (* Going from minor to major: up 3 semitones *)
      let majorIndex := Z.rem (currentIndex + 3) 12 in
      match arr_get allNotes majorIndex with
      | Some k => Some (k, Major)
      | None => None
      end
    else
      (* Going from major to minor: down 3 semitones *)
      let minorIndex := Z.rem (currentIndex + 9) 12 in
      match arr_get allNotes minorIndex with
      | Some k => Some (k, Minor)
      | None => None
      end.

(** The labels of the [SettingItem]s the panel renders. *)
Inductive SettingLabel : Type := KEY | MODE | OCT | INV.

(** The callbacks of the panel that a long press can fire. *)
Inductive PanelCallback : Type :=
| onRelativeKeyChange (k : NoteName) (m : MusicMode)
| onToggleFlats
| onModeLongPress
| onLongPress.

(** [handleItemLongPress] of the item with the given label, for the key
    and mode the panel shows: the callbacks it fires, in order. *)
Definition handleItemLongPress (label : SettingLabel)
  (selectedKey0 : NoteName) (selectedMode : MusicMode) : list PanelCallback :=
  (match label with
   | KEY =>
     if bool_decide (selectedMode = Major) || bool_decide (selectedMode = Minor)
     then
       match getRelativeKey selectedKey0 selectedMode with
       | Some (k, m) => [onRelativeKeyChange k m]
       | None => []
       end
     else if bool_decide (selectedMode = Free) then [onToggleFlats]
     else []
   | MODE =>
     if negb (bool_decide (selectedMode = Free)) then [onModeLongPress] else []
   | _ => []
   end) ++ [onLongPress].

(** ** app/Dock-W-Controls *)

Module DockWControls.

Definition KEYS : list NoteName :=
  [NC; NCs; ND; NDs; NE; NF; NFs; NG; NGs; NA; NAs; NB].

Definition MODES : list MusicMode :=
  [Free; Major; Minor; Dorian; Phrygian; Lydian; Mixolydian; Locrian].

Inductive BassOffset : Type :=
| BASS | plus1 | plus2 | plus3 | plus4 | plus5
| minus6 | minus5 | minus4 | minus3 | minus2 | minus1 | OFF.

Definition BASS_SEQUENCE : list BassOffset :=
  [BASS; plus1; plus2; plus3; plus4; plus5;
   minus6; minus5; minus4; minus3; minus2; minus1; OFF].

Definition SOUNDS : list InstrumentType :=
  [balafon; piano; rhodes; steel_drum; pluck; pad].

(** The values [selectedControl] takes besides [null]. *)
Inductive Control : Type :=
| ctlKey | ctlMode | ctlOctave | ctlInversion | ctlBass.

#[global] Instance BassOffset_eq_dec : EqDecision BassOffset.
Proof. solve_decision. Defined.

#[global] Instance Control_eq_dec : EqDecision Control.
Proof. solve_decision. Defined.

Record DockState : Type := mkDock {
  selectedKey : NoteName;
  mode : MusicMode;
  octave : Z;
  inversion : Z;
  selectedSound : InstrumentType;
  currentChord : option Chord;
  selectedControl : option Control;
  useFlats : bool;
  selectedBassOffset : BassOffset;
  lastPlayedChord : string;
  bassOffsetMap : gmap string BassOffset;
  isSoundWindowSelected : bool;
  isLoadingSound : bool
}.

(** Field updates, one per [useState] setter. *)
Definition setSelectedKey (v : NoteName) (d : DockState) : DockState :=
  mkDock v (mode d) (octave d) (inversion d) (selectedSound d) (currentChord d) (selectedControl d) (useFlats d) (selectedBassOffset d) (lastPlayedChord d) (bassOffsetMap d) (isSoundWindowSelected d) (isLoadingSound d).

Definition setMode (v : MusicMode) (d : DockState) : DockState :=
  mkDock (selectedKey d) v (octave d) (inversion d) (selectedSound d) (currentChord d) (selectedControl d) (useFlats d) (selectedBassOffset d) (lastPlayedChord d) (bassOffsetMap d) (isSoundWindowSelected d) (isLoadingSound d).

Definition setOctave (v : Z) (d : DockState) : DockState :=
  mkDock (selectedKey d) (mode d) v (inversion d) (selectedSound d) (currentChord d) (selectedControl d) (useFlats d) (selectedBassOffset d) (lastPlayedChord d) (bassOffsetMap d) (isSoundWindowSelected d) (isLoadingSound d).

Definition setInversion (v : Z) (d : DockState) : DockState :=
  mkDock (selectedKey d) (mode d) (octave d) v (selectedSound d) (currentChord d) (selectedControl d) (useFlats d) (selectedBassOffset d) (lastPlayedChord d) (bassOffsetMap d) (isSoundWindowSelected d) (isLoadingSound d).

Definition setSelectedSound (v : InstrumentType) (d : DockState) : DockState :=
  mkDock (selectedKey d) (mode d) (octave d) (inversion d) v (currentChord d) (selectedControl d) (useFlats d) (selectedBassOffset d) (lastPlayedChord d) (bassOffsetMap d) (isSoundWindowSelected d) (isLoadingSound d).

Definition setCurrentChord (v : option Chord) (d : DockState) : DockState :=
  mkDock (selectedKey d) (mode d) (octave d) (inversion d) (selectedSound d) v (selectedControl d) (useFlats d) (selectedBassOffset d) (lastPlayedChord d) (bassOffsetMap d) (isSoundWindowSelected d) (isLoadingSound d).

Definition setSelectedControl (v : option Control) (d : DockState) : DockState :=
  mkDock (selectedKey d) (mode d) (octave d) (inversion d) (selectedSound d) (currentChord d) v (useFlats d) (selectedBassOffset d) (lastPlayedChord d) (bassOffsetMap d) (isSoundWindowSelected d) (isLoadingSound d).

Definition setUseFlats (v : bool) (d : DockState) : DockState :=
  mkDock (selectedKey d) (mode d) (octave d) (inversion d) (selectedSound d) (currentChord d) (selectedControl d) v (selectedBassOffset d) (lastPlayedChord d) (bassOffsetMap d) (isSoundWindowSelected d) (isLoadingSound d).

Definition setSelectedBassOffset (v : BassOffset) (d : DockState) : DockState :=
  mkDock (selectedKey d) (mode d) (octave d) (inversion d) (selectedSound d) (currentChord d) (selectedControl d) (useFlats d) v (lastPlayedChord d) (bassOffsetMap d) (isSoundWindowSelected d) (isLoadingSound d).

Definition setLastPlayedChord (v : string) (d : DockState) : DockState :=
  mkDock (selectedKey d) (mode d) (octave d) (inversion d) (selectedSound d) (currentChord d) (selectedControl d) (useFlats d) (selectedBassOffset d) v (bassOffsetMap d) (isSoundWindowSelected d) (isLoadingSound d).

Definition setBassOffsetMap (v : gmap string BassOffset) (d : DockState) : DockState :=
  mkDock (selectedKey d) (mode d) (octave d) (inversion d) (selectedSound d) (currentChord d) (selectedControl d) (useFlats d) (selectedBassOffset d) (lastPlayedChord d) v (isSoundWindowSelected d) (isLoadingSound d).

Definition setIsSoundWindowSelected (v : bool) (d : DockState) : DockState :=
  mkDock (selectedKey d) (mode d) (octave d) (inversion d) (selectedSound d) (currentChord d) (selectedControl d) (useFlats d) (selectedBassOffset d) (lastPlayedChord d) (bassOffsetMap d) v (isLoadingSound d).

Definition setIsLoadingSound (v : bool) (d : DockState) : DockState :=
  mkDock (selectedKey d) (mode d) (octave d) (inversion d) (selectedSound d) (currentChord d) (selectedControl d) (useFlats d) (selectedBassOffset d) (lastPlayedChord d) (bassOffsetMap d) (isSoundWindowSelected d) v.

(** The [useState] initialisers. *)
Definition initialDock : DockState :=
  mkDock NC Free 0 0 balafon None None false BASS "" ∅ false false.

(** What a handler asks of the keyboard through [pianoXLRef]. *)
Inductive RefCall : Type :=
| callAdjustLastChordType (direction : Direction).

(** [arr[i]] where the source relies on the index being in range; the
    state is left as it is in the impossible [undefined] case. *)
Definition pick {A : Type} (arr : list A) (i : Z) (current : A) : A :=
  default current (arr_get arr i).

Definition handleChordChange (chord : option Chord) (d : DockState)
  : DockState :=
  let d1 := setCurrentChord chord d in
  match chord with
  | Some c => if bool_decide (name c = "") then d1
              else setLastPlayedChord (name c) d1
  | None => d1
  end.

(** The bass case shared by [handlePlus] and [handleMinus]: select the
    offset at [nextIndex] and store it for the last played chord. *)
Definition stepBass (nextIndex : Z) (d : DockState) : DockState :=
  let newOffset := pick BASS_SEQUENCE nextIndex (selectedBassOffset d) in
  let d1 := setSelectedBassOffset newOffset d in
  if bool_decide (lastPlayedChord d = "") then d1
  else setBassOffsetMap (<[lastPlayedChord d := newOffset]> (bassOffsetMap d)) d1.

(** Handlers for PlusMinusBar.  [refReady] tells whether
    [pianoXLRef.current] is set. *)
Definition handlePlus (refReady : bool) (d : DockState)
  : DockState * list RefCall :=
  match selectedControl d with
  | None =>
    if refReady then (d, [callAdjustLastChordType up]) else (d, [])
  | Some ctlKey =>
    let currentIndex := indexOf KEYS (selectedKey d) in
    (setSelectedKey
       (pick KEYS (Z.rem (currentIndex + 1) (arr_length KEYS)) (selectedKey d)) d,
     [])
  | Some ctlMode =>
    let currentIndex := indexOf MODES (mode d) in
    (setMode (pick MODES (Z.rem (currentIndex + 1) (arr_length MODES)) (mode d)) d,
     [])
  | Some ctlOctave => (setOctave (Z.min (octave d + 1) 2) d, [])
  | Some ctlInversion => (setInversion (Z.min (inversion d + 1) 3) d, [])
  | Some ctlBass =>
    let currentIndex := indexOf BASS_SEQUENCE (selectedBassOffset d) in
    (stepBass (Z.rem (currentIndex + 1) (arr_length BASS_SEQUENCE)) d, [])
  end.

Definition handleMinus (refReady : bool) (d : DockState)
  : DockState * list RefCall :=
  match selectedControl d with
  | None =>
    if refReady then (d, [callAdjustLastChordType down]) else (d, [])
  | Some ctlKey =>
    let currentIndex := indexOf KEYS (selectedKey d) in
    (setSelectedKey
       (pick KEYS (Z.rem (currentIndex - 1 + arr_length KEYS) (arr_length KEYS))
             (selectedKey d)) d,
     [])
  | Some ctlMode =>
    let currentIndex := indexOf MODES (mode d) in
    (setMode
       (pick MODES (Z.rem (currentIndex - 1 + arr_length MODES) (arr_length MODES))
             (mode d)) d,
     [])
  | Some ctlOctave => (setOctave (Z.max (octave d - 1) (-2)) d, [])
  | Some ctlInversion => (setInversion (Z.max (inversion d - 1) (-3)) d, [])
  | Some ctlBass =>
    let currentIndex := indexOf BASS_SEQUENCE (selectedBassOffset d) in
    (stepBass
       (Z.rem (currentIndex - 1 + arr_length BASS_SEQUENCE)
              (arr_length BASS_SEQUENCE)) d,
     [])
  end.

(** Handlers for SettingsPanelXL. *)
Definition toggleControl (c : Control) (d : DockState) : DockState :=
  setSelectedControl
    (if bool_decide (selectedControl d = Some c) then None else Some c) d.

Definition handleKeyPress : DockState → DockState := toggleControl ctlKey.
Definition handleModePress : DockState → DockState := toggleControl ctlMode.
Definition handleOctavePress : DockState → DockState := toggleControl ctlOctave.
Definition handleInversionPress : DockState → DockState :=
  toggleControl ctlInversion.

Definition handleModeLongPress (d : DockState) : DockState :=
  setSelectedControl None (setMode Free d).

Definition handleToggleFlats (d : DockState) : DockState :=
  setUseFlats (negb (useFlats d)) d.

(** Handler for bass selection. *)
Definition handleBassPress (d : DockState) : DockState :=
  if bool_decide (selectedControl d = Some ctlBass)
  then setSelectedControl None d
  else
    let d1 := setSelectedControl (Some ctlBass) d in
    if bool_decide (lastPlayedChord d = "") then d1
    else
      match bassOffsetMap d !! lastPlayedChord d with
      | Some stored => setSelectedBassOffset stored d1
      | None => d1
      end.

(** Handler for relative key changes. *)
Definition handleRelativeKeyChange (newKey : NoteName) (newMode : MusicMode)
  (d : DockState) : DockState :=
  setMode newMode (setSelectedKey newKey d).

(** Handler for sound selection, up to the timer it starts; the timer
    later runs [soundLoaded]. *)
Definition handleSoundPress (d : DockState) : DockState :=
  if negb (isSoundWindowSelected d)
  then setIsLoadingSound true (setIsSoundWindowSelected true d)
  else
    let currentIndex := indexOf SOUNDS (selectedSound d) in
    let nextIndex := Z.rem (currentIndex + 1) (arr_length SOUNDS) in
    let nextSound := pick SOUNDS nextIndex (selectedSound d) in
    setSelectedSound nextSound (setIsLoadingSound true d).

Definition soundLoaded (d : DockState) : DockState :=
  setIsLoadingSound false d.

(** How the dock wires the callbacks of the settings panel: the KEY
    item gets no long-press callback of its own, the MODE item gets one
    that calls [onModeLongPress] again. *)
Definition panelCallback (label : SettingLabel) (cb : PanelCallback)
  (d : DockState) : DockState :=
  match cb with
  | onRelativeKeyChange k m => handleRelativeKeyChange k m d
  | onToggleFlats => handleToggleFlats d
  | onModeLongPress => handleModeLongPress d
  | onLongPress =>
    match label with
    | MODE => handleModeLongPress d
    | _ => d
    end
  end.

(** A long press on an item of the settings panel, as the dock sees it. *)
Definition longPress (label : SettingLabel) (d : DockState) : DockState :=
  fold_left (fun acc cb => panelCallback label cb acc)
            (handleItemLongPress label (selectedKey d) (mode d)) d.

(** The gestures that reach the dock. *)
Inductive Gesture : Type :=
| gPlus (refReady : bool)
| gMinus (refReady : bool)
| gKeyPress | gModePress | gOctavePress | gInversionPress | gBassPress
| gLongPress (label : SettingLabel)
| gSoundPress | gSoundLoaded
| gChordChange (chord : option Chord).

Definition gesture (g : Gesture) (d : DockState) : DockState :=
  match g with
  | gPlus r => fst (handlePlus r d)
  | gMinus r => fst (handleMinus r d)
  | gKeyPress => handleKeyPress d
  | gModePress => handleModePress d
  | gOctavePress => handleOctavePress d
  | gInversionPress => handleInversionPress d
  | gBassPress => handleBassPress d
  | gLongPress label => longPress label d
  | gSoundPress => handleSoundPress d
  | gSoundLoaded => soundLoaded d
  | gChordChange chord => handleChordChange chord d
  end.

(** The dock after a sequence of gestures, oldest first. *)
Definition run (gs : list Gesture) (d : DockState) : DockState :=
  fold_left (fun acc g => gesture g acc) gs d.

(** The handler behind the [+] bar ([up]) or the [-] bar ([down]). *)
Definition plusMinus (direction : Direction)
  : bool → DockState → DockState * list RefCall :=
  match direction with
  | up => handlePlus
  | down => handleMinus
  end.

(** The settings are in the ranges the controls allow, and the key is
    one of the twelve sharp spellings. *)
Definition settingsInRange (d : DockState) : Prop :=
  -2 ≤ octave d ≤ 2 ∧ -3 ≤ inversion d ≤ 3 ∧ selectedKey d ∈ KEYS.

(** Unfolds the handlers that only set fields and settles the range
    conditions. *)
Ltac in_range :=
  unfold settingsInRange, handleRelativeKeyChange, handleModeLongPress,
    handleToggleFlats, handleKeyPress, handleModePress, handleOctavePress,
    handleInversionPress, toggleControl, soundLoaded, stepBass in *;
  cbn [octave inversion selectedKey setSelectedKey setMode setOctave
       setInversion setSelectedSound setCurrentChord setSelectedControl
       setUseFlats setSelectedBassOffset setLastPlayedChord setBassOffsetMap
       setIsSoundWindowSelected setIsLoadingSound fst] in *;
  repeat split; try tauto; try lia.

End DockWControls.

(** *** Auxiliary notions for the properties *)

(** The step of the cursor: [+1] going up, [-1] going down. *)
Definition cursorStep (direction : Direction) : Z :=
  match direction with up => 1 | down => -1 end.

(** The states the component can be in: it mounts, and then the mode
    effect, key presses and releases, and the +/- handle transform the
    state, each under whatever props the parent passes at that time. *)
Inductive reachable : PianoXLState → Prop :=
| reach_mount p : reachable (initialState p)
| reach_effect p s : reachable s → reachable (fst (modeEffect p s))
| reach_press p s note : reachable s → reachable (fst (onPressIn p s note))
| reach_release s : reachable s → reachable (fst (onPressOut s))
| reach_adjust p s direction :
    reachable s → reachable (adjustLastChordType p s direction).

Definition cursor_nonneg (indices : gmap NoteName Z) : Prop :=
  ∀ note i, indices !! note = Some i → 0 ≤ i.

(** The pitch class of an absolute pitch. *)
Definition pitchClass (n : Z) : Z := n `mod` 12.

(** A sharp note name in a text: a letter A-G directly followed by a
    sharp sign, i.e. a match of [/[A-G]#/]. *)
Definition startsWithSharp (str : string) : bool :=
  match str with
  | String c _ => Ascii.eqb c "#"
  | EmptyString => false
  end.

Fixpoint hasSharpName (str : string) : bool :=
  match str with
  | EmptyString => false
  | String c rest => (isAtoG c && startsWithSharp rest) || hasSharpName rest
  end.

(** For a note of the scale of [key] in mode [m]: the chord built for it
    with the fresh cursor exists and all its pitch classes are in the
    scale. *)
Definition diatonicDefault (key : NoteName) (m : MusicMode) (note : NoteName)
  : bool :=
  let p := mkProps key m 0 0 piano false None in
  negb (includes (getScaleNotes key m) note)
  || match createChord note (getCurrentChordType p (mounted p) note) with
     | Some chord =>
       forallb (fun n => bool_decide
                           (pitchClass n ∈ NOTE_VALUES <$> getScaleNotes key m))
               (notes chord)
     | None => false
     end.

(** ** Proof automation *)

Ltac decide_hyps :=
  repeat match goal with
         | H : bool_decide _ = true |- _ => apply bool_decide_eq_true in H
         | H : bool_decide _ = false |- _ => apply bool_decide_eq_false in H
         end.

(** * Properties *)

(** ** Array helpers *)

Lemma indexOf_from_spec {A : Type} `{EqDecision A} (arr : list A) (x : A) (k : Z) :
  ((x ∉ arr) ∧ indexOf_from arr x k = -1)
  ∨ (∃ i : nat, indexOf_from arr x k = k + Z.of_nat i
                ∧ arr !! i = Some x ∧ x ∉ take i arr).
Proof.
  revert k. induction arr as [|y rest IH]; intros k; simpl.
  - left. split; [apply not_elem_of_nil | reflexivity].
  - destruct (decide (y = x)) as [->|Hne].
    + right. exists 0%nat. simpl. repeat split; [lia | apply not_elem_of_nil].
    + destruct (IH (k + 1)) as [[Hnot Hm]|(i & Hi & Hl & Ht)].
      * left. split; [|exact Hm]. rewrite not_elem_of_cons. auto.
      * right. exists (S i). simpl. repeat split; [lia | exact Hl |].
        rewrite not_elem_of_cons. auto.
Qed.

Lemma indexOf_nonneg_includes {A : Type} `{EqDecision A} (arr : list A) (x : A) (i : nat) :
  indexOf arr x = Z.of_nat i → includes arr x = true ∧ arr !! i = Some x.
Proof.
  unfold indexOf, includes. intros Hi.
  destruct (indexOf_from_spec arr x 0) as [[_ Hm]|(j & Hj & Hl & _)].
  - lia.
  - assert (j = i) as -> by lia. split; [|exact Hl].
    apply bool_decide_eq_true. eapply list_elem_of_lookup_2; eauto.
Qed.

Lemma includes_false {A : Type} `{EqDecision A} (arr : list A) (x : A) :
  x ∉ arr → includes arr x = false.
Proof. intros Hx. unfold includes. by apply bool_decide_eq_false. Qed.

Lemma includes_true {A : Type} `{EqDecision A} (arr : list A) (x : A) :
  x ∈ arr → includes arr x = true.
Proof. intros Hx. unfold includes. by apply bool_decide_eq_true. Qed.

(** ** The chord table *)

(** Every pattern of [CHORD_PATTERNS] starts at offset 0; in particular
    none is empty. *)
Lemma CHORD_PATTERNS_nonempty (t : ChordType) (pattern : list Z) :
  prop_lookup CHORD_PATTERNS (chordTypeStr t) = Some pattern →
  ∃ rest, pattern = 0 :: rest.
Proof.
  destruct t; vm_compute; intros Hp; try discriminate;
    injection Hp as <-; eexists; reflexivity.
Qed.

(** The only member of [ChordType] without a pattern is ["φ7"]. *)
Lemma createChord_None (root0 : NoteName) (t : ChordType) :
  createChord root0 t = None ↔ t = ct_phi7.
Proof.
  unfold createChord. split.
  - destruct t; vm_compute; congruence.
  - intros ->. reflexivity.
Qed.

Lemma createChord_notes (root0 : NoteName) (t : ChordType) (chord : Chord) :
  createChord root0 t = Some chord →
  ∃ rest, notes chord = (NOTE_VALUES root0 + 60) :: rest
          ∧ root chord = root0 ∧ type chord = t.
Proof.
  unfold createChord.
  destruct (prop_lookup CHORD_PATTERNS (chordTypeStr t)) as [pattern|] eqn:Hp;
    [|discriminate].
  destruct (CHORD_PATTERNS_nonempty t pattern Hp) as [rest ->].
  intros [= <-]. simpl. eexists. repeat split. f_equal. lia.
Qed.

Lemma CHORD_PATTERNS_nonneg (t : ChordType) (pattern : list Z) :
  prop_lookup CHORD_PATTERNS (chordTypeStr t) = Some pattern →
  Forall (fun off => 0 ≤ off) pattern.
Proof.
  destruct t; vm_compute; intros Hp; try discriminate;
    injection Hp as <-; repeat constructor; discriminate.
Qed.

Lemma createChord_notes_above (root0 : NoteName) (t : ChordType) (chord : Chord) :
  createChord root0 t = Some chord →
  Forall (fun n => NOTE_VALUES root0 + 60 ≤ n) (notes chord).
Proof.
  unfold createChord.
  destruct (prop_lookup CHORD_PATTERNS (chordTypeStr t)) as [pattern|] eqn:Hp;
    [|discriminate].
  intros [= <-]. simpl. apply Forall_fmap.
  eapply Forall_impl; [exact (CHORD_PATTERNS_nonneg t pattern Hp)|].
  intros off Hoff. unfold compose. cbv beta in Hoff. lia.
Qed.

(** What holds of chord building for the chord types that have a
    pattern.  Whenever [createChord] builds a chord, its notes are the
    offsets of the chord type, each added to [NOTE_VALUES root + 60]; its
    first note is the root at [NOTE_VALUES root + 60] and no note lies
    below it; the only type for which nothing is built is ["φ7"].
    Scenario: key C, mode major, octave 0, inversion 0, no bass.  The
    fresh cursor selects [major]; pressing C plays [60; 64; 67] under the
    name "C".  After one [adjustLastChordType up] the cursor of C is 1,
    the type is [major7], and pressing C plays [60; 64; 67; 71] under
    the name "Cmaj7". *)
Lemma createChord_middle_C_anchor
  (root0 : NoteName) (t : ChordType) (sound : InstrumentType) (flats : bool) :
  notes <$> createChord root0 t
  = map (fun off => off + (NOTE_VALUES root0 + 60))
      <$> prop_lookup CHORD_PATTERNS (chordTypeStr t)
  ∧ match createChord root0 t with
    | Some chord =>
      head (notes chord) = Some (NOTE_VALUES root0 + 60)
      ∧ Forall (fun n => NOTE_VALUES root0 + 60 ≤ n) (notes chord)
      ∧ root chord = root0 ∧ type chord = t
    | None => t = ct_phi7
    end
  ∧ let p := mkProps NC Major 0 0 sound flats None in
    let s0 := mounted p in
    let s1 := adjustLastChordType p (fst (handleKeyPress p s0 NC)) up in
    getCurrentChordType p s0 NC = ct_major
    ∧ snd (handleKeyPress p s0 NC)
      = [ playChord [60; 64; 67] sound;
          onChordChange (Some (mkChord NC ct_major [60; 64; 67] "C"));
          onNoteSelect NC ]
    ∧ chordTypeIndices s1 !! NC = Some 1
    ∧ getCurrentChordType p s1 NC = ct_major7
    ∧ snd (handleKeyPress p s1 NC)
      = [ playChord [60; 64; 67; 71] sound;
          onChordChange (Some (mkChord NC ct_major7 [60; 64; 67; 71] "Cmaj7"));
          onNoteSelect NC ].
Proof.
  split; [|split].
  - unfold createChord.
    destruct (prop_lookup CHORD_PATTERNS (chordTypeStr t)) as [pattern|];
      simpl; [|reflexivity].
    f_equal. apply map_ext. intros off. lia.
  - destruct (createChord root0 t) as [chord|] eqn:Hchord;
      [|by apply createChord_None in Hchord].
    destruct (createChord_notes _ _ _ Hchord) as (rest & Hnotes & Hroot & Htype).
    split; [by rewrite Hnotes|]. split; [|by split].
    by apply (createChord_notes_above root0 t).
  - vm_compute. repeat split; reflexivity.
Qed.

(** C1 fails on the code for the chord type "φ7".  The claim gives every
    root and chord type a built chord; for C and "φ7" that would be the
    offsets [0; 3; 6; 10] on 60, i.e. [60; 63; 66; 70].  In the source the
    entry of [CHORD_PATTERNS] that holds these offsets is keyed by the
    mis-encoded text "Ï†7", so the lookup of "φ7" finds nothing and
    [createChord] returns null for every root.  The type is reachable:
    it is the eleventh of [ALL_CHORD_TYPES], so in free mode, after
    pressing and releasing C and ten [adjustLastChordType up], the cursor
    of C is 10, the key label reads "Cφ7", and pressing C plays nothing,
    reports nothing and leaves no current chord. *)
Theorem createChord_phi7_builds_nothing :
  (∀ root0, createChord root0 ct_phi7 = None)
  ∧ prop_lookup CHORD_PATTERNS (chordTypeStr ct_phi7) = None
  ∧ prop_lookup CHORD_PATTERNS "Ï†7" = Some [0; 3; 6; 10]
  ∧ map (fun off => off + (NOTE_VALUES NC + 60)) [0; 3; 6; 10]
    = [60; 63; 66; 70]
  ∧ ALL_CHORD_TYPES !! 10%nat = Some ct_phi7
  ∧ let p := mkProps NC Free 0 0 piano false None in
    let s1 := fst (onPressOut (fst (handleKeyPress p (mounted p) NC))) in
    let s := Nat.iter 10 (fun st => adjustLastChordType p st up) s1 in
    chordTypeIndices s !! NC = Some 10
    ∧ getCurrentChordType p s NC = ct_phi7
    ∧ keyLabel p s NC = Some "Cφ7"
    ∧ snd (handleKeyPress p s NC) = []
    ∧ currentChord (fst (handleKeyPress p s NC)) = None.
Proof.
  split; [intros root0; by apply createChord_None|].
  vm_compute. repeat split; reflexivity.
Qed.

(** ** Scales *)

(** C7.  [getScaleNotes root mode] lists, degree by degree, the pitch
    class [(index(root) + offset) mod 12] for the offsets of the mode's
    pattern; the pattern starts at 0 and is strictly ascending.  The
    result has 7 elements for every mode other than free and 12 for free,
    each of them one of the twelve pitch classes (in its sharp spelling),
    without repetition; for free mode it is all twelve, starting at the
    root. *)
Theorem getScaleNotes_by_degree (root0 : NoteName) (m : MusicMode) :
  map NOTE_VALUES (getScaleNotes root0 m)
  = map (fun off => (NOTE_VALUES root0 + off) `mod` 12) (SCALE_PATTERNS m)
  ∧ length (getScaleNotes root0 m) = (if decide (m = Free) then 12 else 7)%nat
  ∧ getScaleNotes root0 m ⊆ allNotes
  ∧ NoDup (getScaleNotes root0 m)
  ∧ head (SCALE_PATTERNS m) = Some 0
  ∧ StronglySorted Z.lt (SCALE_PATTERNS m)
  ∧ getScaleNotes root0 Free = rotate (Z.to_nat (NOTE_VALUES root0)) allNotes.
Proof.
  repeat split.
  - destruct root0, m; reflexivity.
  - destruct root0, m; reflexivity.
  - destruct root0, m; compute_done.
  - destruct root0, m; compute_done.
  - destruct m; reflexivity.
  - destruct m; simpl; repeat constructor.
  - destruct root0; reflexivity.
Qed.

(** ** The cursor across mode changes *)

Lemma addDefaults_lookup (indices : gmap NoteName Z) (newly : list NoteName)
  (note : NoteName) :
  addDefaults indices newly !! note
  = match indices !! note with
    | Some i => Some i
    | None => if bool_decide (note ∈ newly) then Some 0 else None
    end.
Proof.
  revert indices. induction newly as [|n rest IH]; intros indices.
  - simpl. destruct (indices !! note); reflexivity.
  - unfold addDefaults in *. simpl. rewrite IH. clear IH.
    destruct (decide (note = n)) as [->|Hne].
    + rewrite (bool_decide_eq_true_2 (n ∈ n :: rest)) by apply list_elem_of_here.
      destruct (indices !! n) eqn:Hn; [by rewrite Hn|].
      by rewrite lookup_insert_eq.
    + assert (indices !! note
              = match indices !! n with
                | Some _ => indices
                | None => <[n:=0]> indices
                end !! note) as <-.
      { destruct (indices !! n); [reflexivity|]. by rewrite lookup_insert_ne. }
      destruct (indices !! note); [reflexivity|].
      destruct (decide (note ∈ rest)) as [Hin|Hnin].
      * rewrite !bool_decide_eq_true_2; [reflexivity| |exact Hin].
        by apply list_elem_of_further.
      * rewrite !bool_decide_eq_false_2; [reflexivity| |exact Hnin].
        rewrite not_elem_of_cons. auto.
Qed.

(** What the mode effect leaves in the cursor, case by case. *)
Lemma modeEffect_indices (p : PianoXLProps) (s : PianoXLState) :
  chordTypeIndices (fst (modeEffect p s))
  = if bool_decide (mode p = prevMode s) then chordTypeIndices s
    else if bool_decide (mode p = Free)
    then addDefaults (chordTypeIndices s)
           (List.filter
              (fun note =>
                 negb (includes (getScaleNotes (selectedKey p) (prevMode s)) note))
              allNotes)
    else ∅.
Proof.
  unfold modeEffect.
  destruct (bool_decide (mode p = prevMode s)) eqn:E1;
    destruct (bool_decide (mode p = Free)) eqn:E2;
    destruct (bool_decide (prevMode s = Free)) eqn:E3;
    cbn [andb negb fst chordTypeIndices]; try reflexivity;
    try (destruct (List.filter _ allNotes); reflexivity);
    exfalso; decide_hyps; congruence.
Qed.

Lemma modeEffect_prevMode (p : PianoXLProps) (s : PianoXLState) :
  prevMode (fst (modeEffect p s)) = mode p.
Proof.
  unfold modeEffect.
  destruct (bool_decide (mode p = prevMode s));
    destruct (bool_decide (mode p = Free));
    destruct (bool_decide (prevMode s = Free)); reflexivity.
Qed.

Lemma modeEffect_scaleNotes (p : PianoXLProps) (s : PianoXLState) :
  scaleNotes (fst (modeEffect p s))
  = if bool_decide (mode p = Free) && negb (bool_decide (mode p = prevMode s))
    then allNotes
    else getScaleNotes (selectedKey p) (mode p).
Proof.
  unfold modeEffect.
  destruct (bool_decide (mode p = prevMode s));
    destruct (bool_decide (mode p = Free));
    destruct (bool_decide (prevMode s = Free)); reflexivity.
Qed.

(** With the cursor of a note at 0 (or absent) the current chord type is
    the first eligible one. *)
Lemma getCurrentChordType_first (p : PianoXLProps) (s : PianoXLState)
  (note : NoteName) :
  default 0 (chordTypeIndices s !! note) = 0 →
  getCurrentChordType p s note
  = default ct_major (head (getAvailableChordTypes p s note)).
Proof.
  intros H0. unfold getCurrentChordType. rewrite H0.
  destruct (bool_decide (mode p = Free)) eqn:E.
  - unfold getAvailableChordTypes. rewrite E. reflexivity.
  - destruct (getAvailableChordTypes p s note) as [|t0 rest]; [reflexivity|].
    unfold arr_length. simpl length.
    rewrite (proj2 (Z.eqb_neq _ 0)) by lia.
    rewrite Z.rem_0_l by lia. reflexivity.
Qed.

(** C2.  Mode-transition reset policy of the cursor [chordTypeIndices].
    On a change into free mode every existing entry is kept (in
    particular those of the notes of the scale that was active), and
    every note outside the previous scale that has no entry gets the
    entry 0.  On any other mode change (free to non-free, or between two
    distinct non-free modes) the cursor becomes empty, so every note
    reads index 0 and starts at the first eligible chord type of the new
    mode. *)
Theorem mode_transition_cursor_policy (p : PianoXLProps) (s : PianoXLState) :
  mode p ≠ prevMode s →
  let s' := fst (modeEffect p s) in
  let prevScaleNotes := getScaleNotes (selectedKey p) (prevMode s) in
  prevMode s' = mode p
  ∧ (mode p = Free →
     (∀ note i, chordTypeIndices s !! note = Some i →
                chordTypeIndices s' !! note = Some i)
     ∧ (∀ note, note ∈ prevScaleNotes →
                chordTypeIndices s' !! note = chordTypeIndices s !! note)
     ∧ (∀ note, note ∈ allNotes → note ∉ prevScaleNotes →
                chordTypeIndices s !! note = None →
                chordTypeIndices s' !! note = Some 0))
  ∧ (mode p ≠ Free →
     chordTypeIndices s' = ∅
     ∧ ∀ note, default 0 (chordTypeIndices s' !! note) = 0
               ∧ getCurrentChordType p s' note
                 = default ct_major (head (getAvailableChordTypes p s' note))).
Proof.
  intros Hchange s' prevScaleNotes.
  assert (Hidx := modeEffect_indices p s). fold s' in Hidx.
  rewrite (bool_decide_eq_false_2 _ Hchange) in Hidx.
  split; [apply modeEffect_prevMode|]. split.
  - intros Hfree. rewrite (bool_decide_eq_true_2 _ Hfree) in Hidx.
    fold prevScaleNotes in Hidx. rewrite Hidx. repeat split.
    + intros note i Hi. by rewrite addDefaults_lookup, Hi.
    + intros note Hin. rewrite addDefaults_lookup.
      destruct (chordTypeIndices s !! note); [reflexivity|].
      rewrite bool_decide_eq_false_2; [reflexivity|].
      rewrite list_elem_of_In, filter_In, (includes_true _ _ Hin).
      intros [_ [=]].
    + intros note Hall Hnew Hnone. rewrite addDefaults_lookup, Hnone.
      rewrite bool_decide_eq_true_2; [reflexivity|].
      rewrite list_elem_of_In, filter_In, (includes_false _ _ Hnew).
      split; [by apply list_elem_of_In | reflexivity].
  - intros Hnonfree. rewrite (bool_decide_eq_false_2 _ Hnonfree) in Hidx.
    split; [exact Hidx|]. intros note.
    assert (default 0 (chordTypeIndices s' !! note) = 0) as H0
        by (by rewrite Hidx, lookup_empty).
    split; [exact H0|]. by apply getCurrentChordType_first.
Qed.

(** Entering free mode from C major with the cursor of C at 2 (an
    in-scale note) and that of F# at 5 (an out-of-scale note). *)
Lemma mode_transition_cursor_policy_witness :
  let p := mkProps NC Free 0 0 piano false None in
  let s := mkState (getScaleNotes NC Major) None (Some NC)
                   (<[NFs := 5]> {[NC := 2]}) Major in
  mode p ≠ prevMode s
  ∧ chordTypeIndices (fst (modeEffect p s)) !! NC = Some 2
  ∧ chordTypeIndices (fst (modeEffect p s)) !! NFs = Some 5
  ∧ chordTypeIndices (fst (modeEffect p s)) !! NCs = Some 0
  ∧ chordTypeIndices (fst (modeEffect p s)) !! ND = None.
Proof.
  intros p s.
  assert (mode p ≠ prevMode s) as Hchange by discriminate.
  destruct (mode_transition_cursor_policy p s Hchange) as (_ & Hfree & _).
  destruct (Hfree eq_refl) as (Hkeep & Hscale & Hnew).
  split; [exact Hchange|]. split; [|split; [|split]].
  - apply Hkeep. reflexivity.
  - apply Hkeep. reflexivity.
  - apply Hnew; [compute_done | compute_done | reflexivity].
  - rewrite Hscale; [reflexivity | compute_done].
Defined.

(** The two edges of the spec's example: major to free keeps cursor[C]
    at 2; free to minor clears it. *)
Example cursor_kept_then_cleared :
  let s := mkState (getScaleNotes NC Major) None (Some NC) {[NC := 2]} Major in
  let s1 := fst (modeEffect (mkProps NC Free 0 0 piano false None) s) in
  let s2 := fst (modeEffect (mkProps NC Minor 0 0 piano false None) s1) in
  chordTypeIndices s1 !! NC = Some 2 ∧ chordTypeIndices s2 !! NC = None.
Proof. vm_compute. split; reflexivity. Qed.

(** ** Eligible chord types *)

(** C8.  In free mode [getAvailableChordTypes] is the full list
    [ALL_CHORD_TYPES] (48 types, each member of [ChordType] exactly once,
    in the cycling order in which the list is written) whatever the note.
    In any other mode, for a note at position [i] of the active scale
    (degree [i + 1], [i < 7]) it is the row of key [i + 1] of a diatonic
    table, 3 or 4 entries long: [MINOR_SCALE_CHORDS] in minor mode, and
    [MAJOR_SCALE_CHORDS] in major mode and, as the fallback, in dorian,
    phrygian, lydian, mixolydian and locrian. *)
Theorem getAvailableChordTypes_by_degree
  (p : PianoXLProps) (s : PianoXLState) (note : NoteName) :
  (mode p = Free → getAvailableChordTypes p s note = ALL_CHORD_TYPES)
  ∧ (∀ i : nat,
       mode p ≠ Free → indexOf (scaleNotes s) note = Z.of_nat i → (i < 7)%nat →
       ∃ row,
         (if decide (mode p = Minor) then MINOR_SCALE_CHORDS
          else MAJOR_SCALE_CHORDS) !! i = Some (pretty (Z.of_nat i + 1), row)
         ∧ getAvailableChordTypes p s note = row
         ∧ (3 ≤ length row ≤ 4)%nat)
  ∧ length ALL_CHORD_TYPES = 48%nat
  ∧ NoDup ALL_CHORD_TYPES
  ∧ ∀ t, t ∈ ALL_CHORD_TYPES.
Proof.
  split; [|split; [|split; [|split]]].
  - intros Hfree. unfold getAvailableChordTypes.
    by rewrite (bool_decide_eq_true_2 _ Hfree).
  - intros i Hmode Hidx Hi. unfold getAvailableChordTypes.
    rewrite (bool_decide_eq_false_2 _ Hmode).
    destruct (indexOf_nonneg_includes _ _ _ Hidx) as [-> _].
    cbn [negb]. rewrite Hidx.
    destruct (decide (mode p = Minor)) as [Hminor|Hminor].
    + rewrite (bool_decide_eq_true_2 _ Hminor).
      do 7 (destruct i as [|i];
            [eexists; split; [reflexivity|]; split; [reflexivity|]; simpl; lia|]).
      lia.
    + rewrite (bool_decide_eq_false_2 _ Hminor).
      do 7 (destruct i as [|i];
            [eexists; split; [reflexivity|]; split; [reflexivity|]; simpl; lia|]).
      lia.
  - reflexivity.
  - unfold ALL_CHORD_TYPES. compute_done.
  - intros []; unfold ALL_CHORD_TYPES; compute_done.
Qed.

(** G is the fifth degree of C major, of C minor and of C dorian. *)
Lemma getAvailableChordTypes_by_degree_witness :
  getAvailableChordTypes (mkProps NC Free 0 0 piano false None)
    (mounted (mkProps NC Free 0 0 piano false None)) NG = ALL_CHORD_TYPES
  ∧ getAvailableChordTypes (mkProps NC Major 0 0 piano false None)
      (mounted (mkProps NC Major 0 0 piano false None)) NG
    = [ct_major; ct_7; ct_9]
  ∧ getAvailableChordTypes (mkProps NC Minor 0 0 piano false None)
      (mounted (mkProps NC Minor 0 0 piano false None)) NG
    = [ct_minor; ct_minor7; ct_minor9]
  ∧ getAvailableChordTypes (mkProps NC Dorian 0 0 piano false None)
      (mounted (mkProps NC Dorian 0 0 piano false None)) NG
    = [ct_major; ct_7; ct_9].
Proof.
  split; [|split; [|split]].
  - apply (getAvailableChordTypes_by_degree
             (mkProps NC Free 0 0 piano false None)). reflexivity.
  - destruct (getAvailableChordTypes_by_degree
                (mkProps NC Major 0 0 piano false None)
                (mounted (mkProps NC Major 0 0 piano false None)) NG)
      as (_ & Hrow & _).
    destruct (Hrow 4%nat) as (row & Htable & -> & _);
      [discriminate | reflexivity | lia |].
    by injection Htable as <-.
  - destruct (getAvailableChordTypes_by_degree
                (mkProps NC Minor 0 0 piano false None)
                (mounted (mkProps NC Minor 0 0 piano false None)) NG)
      as (_ & Hrow & _).
    destruct (Hrow 4%nat) as (row & Htable & -> & _);
      [discriminate | reflexivity | lia |].
    by injection Htable as <-.
  - destruct (getAvailableChordTypes_by_degree
                (mkProps NC Dorian 0 0 piano false None)
                (mounted (mkProps NC Dorian 0 0 piano false None)) NG)
      as (_ & Hrow & _).
    destruct (Hrow 4%nat) as (row & Htable & -> & _);
      [discriminate | reflexivity | lia |].
    by injection Htable as <-.
Defined.

(** ** Key presses outside the scale *)

(** C9.  In a mode other than free, a press of a note that is not in
    the active scale changes nothing and calls nothing: [handleKeyPress]
    returns the state it was given and an empty list of calls, whether or
    not the key component filtered the gesture first ([onPressIn] does,
    and is a no-op as well); such a note has no eligible chord type. *)
Theorem out_of_scale_press_is_noop
  (p : PianoXLProps) (s : PianoXLState) (note : NoteName) :
  mode p ≠ Free → note ∉ scaleNotes s →
  handleKeyPress p s note = (s, [])
  ∧ onPressIn p s note = (s, [])
  ∧ getAvailableChordTypes p s note = [].
Proof.
  intros Hmode Hout.
  assert (handleKeyPress p s note = (s, [])) as Hpress.
  { unfold handleKeyPress.
    by rewrite (bool_decide_eq_false_2 _ Hmode), (includes_false _ _ Hout). }
  split; [exact Hpress|]. split.
  - unfold onPressIn. destruct (isInScale p s note); [exact Hpress|reflexivity].
  - unfold getAvailableChordTypes.
    by rewrite (bool_decide_eq_false_2 _ Hmode), (includes_false _ _ Hout).
Qed.

(** C# is not in C major. *)
Lemma out_of_scale_press_is_noop_witness :
  let p := mkProps NC Major 0 0 piano false (Some 0) in
  mode p ≠ Free ∧ (NCs ∉ scaleNotes (mounted p))
  ∧ handleKeyPress p (mounted p) NCs = (mounted p, [])
  ∧ onPressIn p (mounted p) NCs = (mounted p, [])
  ∧ getAvailableChordTypes p (mounted p) NCs = [].
Proof.
  intros p.
  assert (mode p ≠ Free) as Hmode by discriminate.
  assert (NCs ∉ scaleNotes (mounted p)) as Hout by compute_done.
  split; [exact Hmode|]. split; [exact Hout|].
  exact (out_of_scale_press_is_noop p (mounted p) NCs Hmode Hout).
Defined.

(** ** Cycling the chord type of the last pressed note *)

(** The list that [adjustLastChordType] cycles through is the eligible
    list of the current mode and degree. *)
Lemma availableTypes_recomputed (p : PianoXLProps) (s : PianoXLState)
  (note : NoteName) :
  (if bool_decide (mode p = Free) then ALL_CHORD_TYPES
   else getAvailableChordTypes p s note)
  = getAvailableChordTypes p s note.
Proof.
  unfold getAvailableChordTypes.
  destruct (bool_decide (mode p = Free)); reflexivity.
Qed.

Lemma getAvailableChordTypes_out_of_scale (p : PianoXLProps) (s : PianoXLState)
  (note : NoteName) :
  negb (bool_decide (mode p = Free)) && negb (includes (scaleNotes s) note) = true →
  getAvailableChordTypes p s note = [].
Proof.
  unfold getAvailableChordTypes.
  destruct (bool_decide (mode p = Free)); [discriminate|].
  destruct (includes (scaleNotes s) note); [discriminate|reflexivity].
Qed.

(** C10.  [adjustLastChordType] recomputes the eligible list of the last
    pressed note for the current mode and degree and stores, for that
    note only, the index [(current ± 1) mod length], which lies in
    [0, length) in both directions; with 4 eligible types and the cursor
    at 0, going down stores 3.  It changes nothing when no note was
    pressed yet or when the eligible list is empty.  (The current index
    is the stored entry, 0 when there is none; entries are never
    negative, see [cursor_entries_nonneg].) *)
Theorem adjustLastChordType_wraps
  (p : PianoXLProps) (s : PianoXLState) (direction : Direction) :
  let s' := adjustLastChordType p s direction in
  (lastPressedNote s = None → s' = s)
  ∧ ∀ note, lastPressedNote s = Some note →
      let types := getAvailableChordTypes p s note in
      let len := arr_length types in
      let cur := default 0 (chordTypeIndices s !! note) in
      (types = [] → s' = s)
      ∧ (types ≠ [] → 0 ≤ cur →
         let new := (cur + cursorStep direction) `mod` len in
         chordTypeIndices s' = <[note := new]> (chordTypeIndices s)
         ∧ 0 ≤ new < len
         ∧ (len = 4 → cur = 0 → direction = down → new = 3)
         ∧ scaleNotes s' = scaleNotes s
         ∧ currentChord s' = currentChord s
         ∧ lastPressedNote s' = lastPressedNote s
         ∧ prevMode s' = prevMode s).
Proof.
  intros s'. subst s'. unfold adjustLastChordType. split.
  - intros ->. reflexivity.
  - intros note Hlast. rewrite Hlast, availableTypes_recomputed.
    set (types := getAvailableChordTypes p s note).
    set (len := arr_length types).
    set (cur := default 0 (chordTypeIndices s !! note)).
    split.
    + intros Hnil. subst len. rewrite Hnil.
      destruct (negb (bool_decide (mode p = Free))
                && negb (includes (scaleNotes s) note)); reflexivity.
    + intros Hne Hcur.
      set (new := (cur + cursorStep direction) `mod` len).
      assert (0 < len) as Hlen.
      { subst len. unfold arr_length. destruct types; [congruence|]. simpl. lia. }
      destruct (negb (bool_decide (mode p = Free))
                && negb (includes (scaleNotes s) note)) eqn:Hout.
      { apply getAvailableChordTypes_out_of_scale in Hout. contradiction. }
      rewrite (proj2 (Z.eqb_neq len 0)) by lia.
      assert (match direction with
              | up => Z.rem (cur + 1) len
              | down => Z.rem (cur - 1 + len) len
              end = new) as ->.
      { subst new. destruct direction; simpl cursorStep.
        - rewrite Z.rem_mod_nonneg by lia. reflexivity.
        - rewrite Z.rem_mod_nonneg by lia.
          replace (cur - 1 + len) with (cur + -1 + 1 * len) by lia.
          apply Z.mod_add. lia. }
      cbn [scaleNotes currentChord lastPressedNote chordTypeIndices prevMode].
      repeat split; try reflexivity.
      * apply Z.mod_pos_bound. lia.
      * apply Z.mod_pos_bound. lia.
      * intros H4 H0 ->. subst new. rewrite H4, H0. reflexivity.
Qed.

(** In C major, C has four eligible types; from the fresh cursor one
    step down lands on the last of them, one step up on the second. *)
Lemma adjustLastChordType_wraps_witness :
  let p := mkProps NC Major 0 0 piano false None in
  let s := fst (handleKeyPress p (mounted p) NC) in
  lastPressedNote s = Some NC
  ∧ arr_length (getAvailableChordTypes p s NC) = 4
  ∧ chordTypeIndices (adjustLastChordType p s down) = <[NC := 3]> (chordTypeIndices s)
  ∧ chordTypeIndices (adjustLastChordType p s up) = <[NC := 1]> (chordTypeIndices s)
  ∧ adjustLastChordType p (mounted p) down = mounted p.
Proof.
  intros p s.
  assert (lastPressedNote s = Some NC) as Hlast by reflexivity.
  split; [exact Hlast|]. split; [reflexivity|]. split; [|split].
  - destruct (adjustLastChordType_wraps p s down) as [_ Hsome].
    destruct (Hsome NC Hlast) as [_ Hstep].
    destruct Hstep as (Hidx & _); [discriminate | reflexivity |].
    exact Hidx.
  - destruct (adjustLastChordType_wraps p s up) as [_ Hsome].
    destruct (Hsome NC Hlast) as [_ Hstep].
    destruct Hstep as (Hidx & _); [discriminate | reflexivity |].
    exact Hidx.
  - destruct (adjustLastChordType_wraps p (mounted p) down) as [Hnone _].
    apply Hnone. reflexivity.
Defined.

(** ** Reachable states and the cursor invariant *)

Lemma handleKeyPress_indices (p : PianoXLProps) (s : PianoXLState)
  (note : NoteName) :
  chordTypeIndices (fst (handleKeyPress p s note)) = chordTypeIndices s.
Proof.
  unfold handleKeyPress.
  destruct (negb (bool_decide (mode p = Free))
            && negb (includes (scaleNotes s) note)); [reflexivity|].
  destruct (createChord note (getCurrentChordType p s note)); reflexivity.
Qed.

Lemma cursor_entries_nonneg (s : PianoXLState) :
  reachable s → cursor_nonneg (chordTypeIndices s).
Proof.
  induction 1 as [p|p s _ IH|p s note _ IH|s _ IH|p s direction _ IH].
  - intros note i. simpl. by rewrite lookup_empty.
  - rewrite modeEffect_indices.
    destruct (bool_decide (mode p = prevMode s)); [exact IH|].
    destruct (bool_decide (mode p = Free)).
    + intros note i. rewrite addDefaults_lookup.
      destruct (chordTypeIndices s !! note) as [j|] eqn:Hj.
      * intros [= <-]. by apply (IH note).
      * destruct (bool_decide _); intros [= <-]. lia.
    + intros note i. by rewrite lookup_empty.
  - unfold onPressIn. destruct (isInScale p s note); [|exact IH].
    by rewrite handleKeyPress_indices.
  - exact IH.
  - unfold adjustLastChordType.
    destruct (lastPressedNote s) as [lastNote|]; [|exact IH].
    rewrite availableTypes_recomputed.
    destruct (negb (bool_decide (mode p = Free))
              && negb (includes (scaleNotes s) lastNote)); [exact IH|].
    destruct (Z.eqb_spec (arr_length (getAvailableChordTypes p s lastNote)) 0)
      as [|Hlen]; [exact IH|].
    assert (0 < arr_length (getAvailableChordTypes p s lastNote)) as Hpos
        by (unfold arr_length in *; lia).
    assert (0 ≤ default 0 (chordTypeIndices s !! lastNote)) as Hcur.
    { destruct (chordTypeIndices s !! lastNote) as [j|] eqn:Hj; simpl; [|lia].
      by apply (IH lastNote). }
    intros note i. cbn [chordTypeIndices].
    destruct (decide (lastNote = note)) as [->|Hne].
    + rewrite lookup_insert_eq. intros [= <-].
      destruct direction; apply Z.rem_nonneg; lia.
    + rewrite lookup_insert_ne by exact Hne. apply IH.
Qed.

(** ** Inversion *)

Lemma invertUp_cons (x : Z) (rest : list Z) :
  invertUp (x :: rest) = rest ++ [x + 12].
Proof. reflexivity. Qed.

Lemma invertDown_snoc (x : Z) (rest : list Z) :
  invertDown (rest ++ [x]) = (x - 12) :: rest.
Proof. unfold invertDown. by rewrite last_snoc, removelast_last. Qed.

Lemma invertUp_length (ns : list Z) : length (invertUp ns) = length ns.
Proof. destruct ns; simpl; [reflexivity|]. rewrite length_app. simpl. lia. Qed.

Lemma invertDown_length (ns : list Z) : length (invertDown ns) = length ns.
Proof.
  destruct ns as [|x rest] using rev_ind; [reflexivity|].
  rewrite invertDown_snoc, length_app. simpl. lia.
Qed.

Lemma invertDown_invertUp (ns : list Z) : invertDown (invertUp ns) = ns.
Proof.
  destruct ns as [|x rest]; [reflexivity|].
  rewrite invertUp_cons, invertDown_snoc. f_equal. lia.
Qed.

Lemma invertUp_invertDown (ns : list Z) : invertUp (invertDown ns) = ns.
Proof.
  destruct ns as [|x rest _] using rev_ind; [reflexivity|].
  rewrite invertDown_snoc, invertUp_cons. do 2 f_equal. lia.
Qed.

(** Undoing [k] passes of one loop with [k] passes of the other. *)
Lemma iter_cancel (f g : list Z → list Z) (k : nat) (ns : list Z) :
  (∀ l, g (f l) = l) → Nat.iter k g (Nat.iter k f ns) = ns.
Proof.
  intros Hgf. induction k as [|k IH]; [reflexivity|].
  rewrite Nat.iter_succ_r. simpl. by rewrite Hgf.
Qed.

Lemma applyInversion_cancel (k : Z) (ns : list Z) :
  applyInversion (- k) (applyInversion k ns) = ns.
Proof.
  unfold applyInversion.
  destruct (Z.eqb_spec k 0) as [->|Hk]; [reflexivity|].
  rewrite (proj2 (Z.eqb_neq (- k) 0)) by lia.
  replace (Z.abs_nat (- k)) with (Z.abs_nat k) by lia.
  destruct (Z.ltb_spec 0 k) as [Hpos|Hneg].
  - rewrite (proj2 (Z.ltb_ge 0 (- k))) by lia.
    apply iter_cancel, invertDown_invertUp.
  - rewrite (proj2 (Z.ltb_lt 0 (- k))) by lia.
    apply iter_cancel, invertUp_invertDown.
Qed.

Lemma applyInversion_length (k : Z) (ns : list Z) :
  length (applyInversion k ns) = length ns.
Proof.
  unfold applyInversion. destruct (k =? 0); [reflexivity|].
  induction (Z.abs_nat k) as [|n IH]; [reflexivity|]. simpl.
  destruct (0 <? k); [rewrite invertUp_length|rewrite invertDown_length];
    exact IH.
Qed.

(** One more pass of the loop, in the direction of the inversion. *)
Lemma applyInversion_succ (k : Z) (ns : list Z) :
  0 ≤ k → applyInversion (k + 1) ns = invertUp (applyInversion k ns).
Proof.
  intros Hk. unfold applyInversion.
  rewrite (proj2 (Z.eqb_neq (k + 1) 0)) by lia.
  rewrite (proj2 (Z.ltb_lt 0 (k + 1))) by lia.
  replace (Z.abs_nat (k + 1)) with (S (Z.abs_nat k)) by lia. simpl.
  destruct (Z.eqb_spec k 0) as [->|Hne]; [reflexivity|].
  by rewrite (proj2 (Z.ltb_lt 0 k)) by lia.
Qed.

Lemma applyInversion_pred (k : Z) (ns : list Z) :
  k ≤ 0 → applyInversion (k - 1) ns = invertDown (applyInversion k ns).
Proof.
  intros Hk. unfold applyInversion.
  rewrite (proj2 (Z.eqb_neq (k - 1) 0)) by lia.
  rewrite (proj2 (Z.ltb_ge 0 (k - 1))) by lia.
  replace (Z.abs_nat (k - 1)) with (S (Z.abs_nat k)) by lia. simpl.
  destruct (Z.eqb_spec k 0) as [->|Hne]; [reflexivity|].
  by rewrite (proj2 (Z.ltb_ge 0 k)) by lia.
Qed.

(** Adding a constant keeps a strictly ascending list strictly
    ascending. *)
Lemma StronglySorted_shift (f : Z → Z) (ns : list Z) :
  (∀ x y, x < y → f x < f y) →
  StronglySorted Z.lt ns → StronglySorted Z.lt (map f ns).
Proof.
  intros Hf. induction 1 as [|x rest _ IH Hall]; simpl; constructor;
    [exact IH|].
  rewrite Forall_forall in *. intros y (z & -> & Hz)%list_elem_of_fmap. auto.
Qed.

Lemma CHORD_PATTERNS_ascending (t : ChordType) (pattern : list Z) :
  prop_lookup CHORD_PATTERNS (chordTypeStr t) = Some pattern →
  StronglySorted Z.lt pattern.
Proof.
  destruct t; vm_compute; intros Hp; try discriminate;
    injection Hp as <-; repeat constructor.
Qed.

(** A chord as built and octave-shifted, before any inversion, is
    strictly ascending: its first note is its lowest, its last its
    highest. *)
Lemma built_chord_ascending (root0 : NoteName) (t : ChordType) (chord : Chord)
  (o : Z) :
  createChord root0 t = Some chord →
  StronglySorted Z.lt (applyOctave o (notes chord)).
Proof.
  unfold createChord.
  destruct (prop_lookup CHORD_PATTERNS (chordTypeStr t)) as [pattern|] eqn:Hp;
    [|discriminate].
  intros [= <-]. simpl. unfold applyOctave.
  apply StronglySorted_shift; [intros x y Hxy; destruct (o =? 0); lia|].
  apply StronglySorted_shift; [intros x y Hxy; lia|].
  by apply (CHORD_PATTERNS_ascending t).
Qed.

(** C6 (as the code has it).  Inversion is a reversible rotation: for a
    chord built for any root, chord type and octave, inverting by [k]
    and then by [-k] gives back the very note sequence of inversion 0
    (hence the same pitch set).  Each pass of a positive inversion takes
    the first note of the sequence, raises it by 12 and moves it to the
    end; each pass of a negative inversion takes the last note, lowers it
    by 12 and moves it to the front; the other notes keep their order and
    the note count never changes.  Before any inversion the sequence is
    strictly ascending, so the first pass does move the lowest
    (respectively highest) note. *)
Theorem inversion_is_reversible_rotation
  (root0 : NoteName) (t : ChordType) (chord : Chord) (o k : Z) :
  createChord root0 t = Some chord →
  let built := applyOctave o (notes chord) in
  applyInversion (- k) (applyInversion k built) = applyInversion 0 built
  ∧ applyInversion 0 built = built
  ∧ (0 ≤ k → applyInversion (k + 1) built = invertUp (applyInversion k built))
  ∧ (k ≤ 0 → applyInversion (k - 1) built = invertDown (applyInversion k built))
  ∧ (∀ x rest, invertUp (x :: rest) = rest ++ [x + 12])
  ∧ (∀ x rest, invertDown (rest ++ [x]) = (x - 12) :: rest)
  ∧ length (applyInversion k built) = length (notes chord)
  ∧ StronglySorted Z.lt built.
Proof.
  intros Hchord built.
  split; [apply applyInversion_cancel|].
  split; [reflexivity|].
  split; [apply applyInversion_succ|].
  split; [apply applyInversion_pred|].
  split; [apply invertUp_cons|].
  split; [apply invertDown_snoc|].
  split; [|by apply (built_chord_ascending root0 t)].
  rewrite applyInversion_length. apply length_map.
Qed.

(** C7b13 one octave up, inverted three times down and back. *)
Lemma inversion_is_reversible_rotation_witness :
  createChord NC ct_7b13 = Some (mkChord NC ct_7b13 [60; 64; 67; 70; 80] "C7b13")
  ∧ applyInversion (-3) [72; 76; 79; 82; 92] = [67; 70; 80; 72; 76]
  ∧ applyInversion 3 (applyInversion (-3) [72; 76; 79; 82; 92])
    = [72; 76; 79; 82; 92].
Proof.
  assert (createChord NC ct_7b13
          = Some (mkChord NC ct_7b13 [60; 64; 67; 70; 80] "C7b13")) as Hchord
      by reflexivity.
  split; [exact Hchord|]. split; [reflexivity|].
  destruct (inversion_is_reversible_rotation NC ct_7b13 _ 1 (-3) Hchord)
    as (Hback & _).
  exact Hback.
Defined.

(** C6 as stated fails where the sequence is no longer pitch-sorted.
    C7b13 is [60; 64; 67; 70; 80]; after two passes down it is
    [58; 68; 60; 64; 67], and the third pass lowers its last note 67
    although 68 is higher.  C13 is [60; 64; 67; 70; 74; 81]; after four
    passes up it is [74; 81; 72; 76; 79; 82], and the fifth pass raises
    its first note 74 although 72 is lower. *)
Lemma inversion_step_not_extreme_note :
  createChord NC ct_7b13 = Some (mkChord NC ct_7b13 [60; 64; 67; 70; 80] "C7b13")
  ∧ applyInversion (-2) (applyOctave 0 [60; 64; 67; 70; 80]) = [58; 68; 60; 64; 67]
  ∧ applyInversion (-3) (applyOctave 0 [60; 64; 67; 70; 80]) = [55; 58; 68; 60; 64]
  ∧ ¬ (∀ root0 t chord o (k : Z) x,
         createChord root0 t = Some chord → k ≤ 0 →
         last (applyInversion k (applyOctave o (notes chord))) = Some x →
         ∀ y, y ∈ applyInversion k (applyOctave o (notes chord)) → y ≤ x)
  ∧ createChord NC ct_13 = Some (mkChord NC ct_13 [60; 64; 67; 70; 74; 81] "C13")
  ∧ applyInversion 4 (applyOctave 0 [60; 64; 67; 70; 74; 81]) = [74; 81; 72; 76; 79; 82]
  ∧ applyInversion 5 (applyOctave 0 [60; 64; 67; 70; 74; 81]) = [81; 72; 76; 79; 82; 86]
  ∧ ¬ (∀ root0 t chord o (k : Z) x,
         createChord root0 t = Some chord → 0 ≤ k →
         head (applyInversion k (applyOctave o (notes chord))) = Some x →
         ∀ y, y ∈ applyInversion k (applyOctave o (notes chord)) → x ≤ y).
Proof.
  split; [reflexivity|]. split; [reflexivity|]. split; [reflexivity|].
  split.
  { intros Hclaim.
    assert (68 ≤ 67) as Habs; [|lia].
    apply (Hclaim NC ct_7b13 _ 0 (-2) 67 eq_refl); [lia | reflexivity |].
    compute_done. }
  split; [reflexivity|]. split; [reflexivity|]. split; [reflexivity|].
  intros Hclaim.
  assert (74 ≤ 72) as Habs; [|lia].
  apply (Hclaim NC ct_13 _ 0 4 74 eq_refl); [lia | reflexivity |].
  compute_done.
Qed.

(** ** The bass note *)

Lemma indexOf_allNotes (note : NoteName) :
  note ∈ allNotes → indexOf allNotes note = NOTE_VALUES note.
Proof.
  destruct note; try reflexivity; intros Hin; exfalso; revert Hin;
    compute_done.
Qed.

(** The calls of a key press are the chord, then the bass calls, then
    the two callbacks. *)
Lemma playBassNote_in_calls (p : PianoXLProps) (s : PianoXLState)
  (note : NoteName) (b : Z) :
  playBassNote b ∈ snd (handleKeyPress p s note) →
  ∃ chord, createChord note (getCurrentChordType p s note) = Some chord
           ∧ playBassNote b ∈ bassCalls p s note chord.
Proof.
  unfold handleKeyPress.
  destruct (negb (bool_decide (mode p = Free))
            && negb (includes (scaleNotes s) note)).
  { simpl. by intros ?%elem_of_nil. }
  destruct (createChord note (getCurrentChordType p s note)) as [chord|].
  - cbn [snd app]. intros Hin. exists chord. split; [reflexivity|].
    apply elem_of_cons in Hin as [[=]|Hin].
    apply elem_of_app in Hin as [Hin|Hin]; [exact Hin|].
    apply elem_of_cons in Hin as [[=]|Hin].
    apply elem_of_cons in Hin as [[=]|Hin].
    by apply elem_of_nil in Hin.
  - simpl. by intros ?%elem_of_nil.
Qed.

(** The bass sounds only for a note that was already the last pressed
    note in the render the handler belongs to. *)
Lemma bass_requires_previous_press (p : PianoXLProps) (s : PianoXLState)
  (note : NoteName) (b : Z) :
  playBassNote b ∈ snd (handleKeyPress p s note) →
  lastPressedNote s = Some note ∧ selectedBassOffset p ≠ None.
Proof.
  intros (chord & _ & Hin)%playBassNote_in_calls. revert Hin.
  unfold bassCalls.
  destruct (selectedBassOffset p); [|by intros ?%elem_of_nil].
  destruct (decide (lastPressedNote s = Some note)) as [Hl|Hl].
  - by split.
  - rewrite (bool_decide_eq_false_2 _ Hl). by intros ?%elem_of_nil.
Qed.

(** An accepted key press makes the pressed note the last pressed note
    of the next render. *)
Lemma handleKeyPress_lastPressedNote (p : PianoXLProps) (s : PianoXLState)
  (note : NoteName) :
  isInScale p s note = true →
  lastPressedNote (fst (handleKeyPress p s note)) = Some note.
Proof.
  unfold isInScale, handleKeyPress.
  destruct (bool_decide (mode p = Free)); simpl.
  - intros _.
    destruct (createChord note (getCurrentChordType p s note)); reflexivity.
  - intros ->. simpl.
    destruct (createChord note (getCurrentChordType p s note)); reflexivity.
Qed.

(** The numeric bass pitch never depends on octave or inversion, and it
    lies in the register [48, 59] whenever root index plus offset is not
    negative. *)
Lemma numeric_bass_pitch (p : PianoXLProps) (s : PianoXLState)
  (note : NoteName) (off b : Z) :
  selectedBassOffset p = Some off → off ≠ 0 →
  playBassNote b ∈ snd (handleKeyPress p s note) →
  b = 48 + Z.rem (NOTE_VALUES note + off) 12
  ∧ (0 ≤ NOTE_VALUES note + off →
     b = 48 + (NOTE_VALUES note + off) `mod` 12 ∧ 48 ≤ b ≤ 59).
Proof.
  intros Hoff Hnz (chord & _ & Hin)%playBassNote_in_calls. revert Hin.
  unfold bassCalls. rewrite Hoff.
  destruct (bool_decide (lastPressedNote s = Some note));
    [|by intros ?%elem_of_nil].
  destruct (Z.eqb_spec (indexOf allNotes note) (-1)) as [|Hidx];
    [by intros ?%elem_of_nil|].
  rewrite (proj2 (Z.eqb_neq off 0)) by exact Hnz.
  intros [= ->]%list_elem_of_singleton.
  assert (indexOf allNotes note = NOTE_VALUES note) as ->.
  { apply indexOf_allNotes.
    destruct (indexOf_from_spec allNotes note 0) as [[_ Hm]|(i & _ & Hl & _)].
    - unfold indexOf in Hidx. contradiction.
    - eapply list_elem_of_lookup_2; eauto. }
  split; [reflexivity|]. intros Hnonneg.
  rewrite Z.rem_mod_nonneg by lia.
  pose proof (Z.mod_pos_bound (NOTE_VALUES note + off) 12). lia.
Qed.

(** C3 fails on the code for a negative sum.  Key C, bass offset -1,
    C pressed twice (the second press sounds the bass): the bass pitch is
    47, below the register [48, 59], where the claim gives
    48 + ((0 - 1) mod 12) = 59; the label suffix of the same offset reads
    "/undefined".  The remainder [%] keeps the sign of [rootIndex +
    selectedBassOffset]. *)
Theorem numeric_bass_negative_sum :
  let p := mkProps NC Free 0 0 piano false (Some (-1)) in
  let s := fst (handleKeyPress p (mounted p) NC) in
  snd (handleKeyPress p s NC)
  = [ playChord [60; 64; 67] piano;
      playBassNote 47;
      onChordChange (Some (mkChord NC ct_major [60; 64; 67] "C/undefined"));
      onNoteSelect NC ]
  ∧ 48 + (NOTE_VALUES NC + -1) `mod` 12 = 59
  ∧ getBassNote NC (Some (-1)) = "/undefined".
Proof. vm_compute. repeat split; reflexivity. Qed.

(** C4 (as the code has it).  With the bass offset BASS (0), any bass
    pitch a key press adds is the root of the chord as [createChord]
    built it at the middle-C anchor, one octave down:
    [NOTE_VALUES note + 60 - 12], whatever the octave and the inversion;
    for C that is 48.  It is added when the pressed note (one of the
    twelve keys, in scale, with a chord type that has a pattern) was
    already the last pressed note. *)
Theorem bass_root_is_anchored_root
  (p : PianoXLProps) (s : PianoXLState) (note : NoteName) :
  selectedBassOffset p = Some 0 →
  (∀ b, playBassNote b ∈ snd (handleKeyPress p s note) →
        b = NOTE_VALUES note + 60 - 12)
  ∧ (lastPressedNote s = Some note → note ∈ allNotes →
     isInScale p s note = true → getCurrentChordType p s note ≠ ct_phi7 →
     playBassNote (NOTE_VALUES note + 60 - 12) ∈ snd (handleKeyPress p s note)).
Proof.
  intros Hbass. split.
  - intros b (chord & Hchord & Hin)%playBassNote_in_calls. revert Hin.
    unfold bassCalls. rewrite Hbass.
    destruct (bool_decide (lastPressedNote s = Some note));
      [|by intros ?%elem_of_nil].
    destruct (indexOf allNotes note =? -1); [by intros ?%elem_of_nil|].
    destruct (createChord_notes _ _ _ Hchord) as (rest & -> & _).
    simpl. by intros [= ->]%list_elem_of_singleton.
  - intros Hlast Hkey Hscale Htype.
    unfold handleKeyPress.
    assert (negb (bool_decide (mode p = Free))
            && negb (includes (scaleNotes s) note) = false) as ->.
    { unfold isInScale in Hscale.
      destruct (bool_decide (mode p = Free)); [reflexivity|].
      by rewrite Hscale. }
    destruct (createChord note (getCurrentChordType p s note)) as [chord|]
      eqn:Hchord; [|by apply createChord_None in Hchord].
    destruct (createChord_notes _ _ _ Hchord) as (rest & Hnotes & _).
    cbn [snd]. apply elem_of_app. right. apply elem_of_app. left.
    unfold bassCalls.
    rewrite Hbass, (bool_decide_eq_true_2 _ Hlast), Hnotes.
    rewrite (indexOf_allNotes _ Hkey).
    rewrite (proj2 (Z.eqb_neq (NOTE_VALUES note) (-1)))
      by (destruct note; discriminate).
    simpl. apply list_elem_of_here.
Qed.

(** Key C, octave +1, inversion -1, BASS: the chord sounds at
    [67; 72; 76], the bass at 48. *)
Lemma bass_root_is_anchored_root_witness :
  let p := mkProps NC Free 1 (-1) piano false (Some 0) in
  let s := fst (handleKeyPress p (mounted p) NC) in
  selectedBassOffset p = Some 0
  ∧ playChord [67; 72; 76] piano ∈ snd (handleKeyPress p s NC)
  ∧ playBassNote 48 ∈ snd (handleKeyPress p s NC)
  ∧ ∀ b, playBassNote b ∈ snd (handleKeyPress p s NC) → b = 48.
Proof.
  intros p s.
  assert (selectedBassOffset p = Some 0) as Hbass by reflexivity.
  split; [exact Hbass|]. split; [compute_done|]. split.
  - apply (bass_root_is_anchored_root p s NC Hbass);
      [reflexivity | compute_done | reflexivity | discriminate].
  - apply (bass_root_is_anchored_root p s NC Hbass).
Defined.

(** C4 as stated fails once the octave is not 0.  Key C, octave +1,
    BASS, C pressed twice: the chord sounds at [72; 76; 79], so one
    octave below its lowest note after the octave shift is 60, yet the
    bass sounds at 48. *)
Lemma bass_root_ignores_octave_shift :
  let p := mkProps NC Free 1 0 piano false (Some 0) in
  let s := fst (handleKeyPress p (mounted p) NC) in
  snd (handleKeyPress p s NC)
  = [ playChord [72; 76; 79] piano;
      playBassNote 48;
      onChordChange (Some (mkChord NC ct_major [72; 76; 79] "C"));
      onNoteSelect NC ]
  ∧ ¬ (∀ chord b,
         createChord NC (getCurrentChordType p s NC) = Some chord →
         playBassNote b ∈ snd (handleKeyPress p s NC) →
         head (applyOctave (octave p) (notes chord)) = Some (b + 12)).
Proof.
  intros p s. split; [vm_compute; reflexivity|].
  intros Hclaim.
  specialize (Hclaim (mkChord NC ct_major [60; 64; 67] "Cmajor") 48 eq_refl).
  assert (playBassNote 48 ∈ snd (handleKeyPress p s NC)) as Hin by compute_done.
  specialize (Hclaim Hin). vm_compute in Hclaim. discriminate.
Qed.

(** C5 fails on the code for the first press of a note.  Free mode, key
    C, bass offset +1.  The first press of C makes C the last pressed
    note, but calls no [playBassNote] and reports the name "C" without
    the suffix; only the key label of the next render reads "C/C#".
    Pressing D next does not sound a bass either (nor C's), although D
    becomes the last pressed note and its label reads "D/D#".  A second
    press of D does sound the bass, 51.  The handler compares the pressed
    note with the [lastPressedNote] of its own render, which
    [setLastPressedNote] does not change. *)
Theorem bass_skipped_on_first_press :
  let p := mkProps NC Free 0 0 piano false (Some 1) in
  let s0 := mounted p in
  let s1 := fst (handleKeyPress p s0 NC) in
  let s2 := fst (handleKeyPress p s1 ND) in
  snd (handleKeyPress p s0 NC)
  = [ playChord [60; 64; 67] piano;
      onChordChange (Some (mkChord NC ct_major [60; 64; 67] "C"));
      onNoteSelect NC ]
  ∧ lastPressedNote s1 = Some NC
  ∧ keyLabel p s1 NC = Some "C/C#" ∧ keyLabel p s1 ND = Some "D"
  ∧ snd (handleKeyPress p s1 ND)
    = [ playChord [62; 66; 69] piano;
        onChordChange (Some (mkChord ND ct_major [62; 66; 69] "D"));
        onNoteSelect ND ]
  ∧ lastPressedNote s2 = Some ND
  ∧ keyLabel p s2 ND = Some "D/D#" ∧ keyLabel p s2 NC = Some "C"
  ∧ snd (handleKeyPress p s2 ND)
    = [ playChord [62; 66; 69] piano;
        playBassNote 51;
        onChordChange (Some (mkChord ND ct_major [62; 66; 69] "D/D#"));
        onNoteSelect ND ].
Proof. vm_compute. repeat split; reflexivity. Qed.

(** * Further properties *)

(** ** Note spellings *)

(** X1.  [sharpToFlatMap] is a canonical flat spelling: applying it
    twice is applying it once, it never changes the pitch class, its
    result never contains a sharp sign, and it leaves a name alone
    exactly when that name has no sharp sign. *)
Theorem sharpToFlatMap_canonical (n : NoteName) :
  sharpToFlatMap (sharpToFlatMap n) = sharpToFlatMap n
  ∧ NOTE_VALUES (sharpToFlatMap n) = NOTE_VALUES n
  ∧ includes_char "#" (noteStr (sharpToFlatMap n)) = false
  ∧ (sharpToFlatMap n = n ↔ includes_char "#" (noteStr n) = false).
Proof.
  destruct n; (split; [reflexivity|]); (split; [reflexivity|]);
    (split; [reflexivity|]); split; intros H; try reflexivity;
    discriminate H.
Qed.

(** ** What sounds on a key press *)

Lemma applyOctave_pitchClass (o : Z) (ns : list Z) :
  pitchClass <$> applyOctave o ns = pitchClass <$> ns.
Proof.
  unfold applyOctave. induction ns as [|x rest IH]; [reflexivity|].
  simpl. f_equal; [|exact IH]. unfold pitchClass.
  destruct (o =? 0); [reflexivity|].
  replace (x + 12 * o) with (x + o * 12) by lia. apply Z.mod_add. lia.
Qed.

Lemma invertUp_pitchClass (ns : list Z) :
  pitchClass <$> invertUp ns ≡ₚ pitchClass <$> ns.
Proof.
  destruct ns as [|x rest]; [reflexivity|].
  rewrite invertUp_cons, fmap_app. simpl.
  replace (pitchClass (x + 12)) with (pitchClass x).
  - symmetry. apply Permutation_cons_append.
  - unfold pitchClass. replace (x + 12) with (x + 1 * 12) by lia.
    symmetry. apply Z.mod_add. lia.
Qed.

Lemma invertDown_pitchClass (ns : list Z) :
  pitchClass <$> invertDown ns ≡ₚ pitchClass <$> ns.
Proof.
  destruct ns as [|x rest _] using rev_ind; [reflexivity|].
  rewrite invertDown_snoc, fmap_app. simpl.
  replace (pitchClass (x - 12)) with (pitchClass x).
  - apply Permutation_cons_append.
  - unfold pitchClass. replace (x - 12) with (x + (-1) * 12) by lia.
    symmetry. apply Z.mod_add. lia.
Qed.

Lemma applyInversion_pitchClass (k : Z) (ns : list Z) :
  pitchClass <$> applyInversion k ns ≡ₚ pitchClass <$> ns.
Proof.
  unfold applyInversion. destruct (k =? 0); [reflexivity|].
  induction (Z.abs_nat k) as [|n IH]; [reflexivity|]. simpl.
  destruct (0 <? k).
  - by rewrite invertUp_pitchClass.
  - by rewrite invertDown_pitchClass.
Qed.

(** The chord call of a key press, if there is one. *)
Lemma playChord_in_calls (p : PianoXLProps) (s : PianoXLState)
  (note : NoteName) (ns : list Z) (sound : InstrumentType) :
  playChord ns sound ∈ snd (handleKeyPress p s note) →
  ∃ chord, createChord note (getCurrentChordType p s note) = Some chord
           ∧ ns = applyInversion (inversion p) (applyOctave (octave p) (notes chord))
           ∧ sound = selectedSound p.
Proof.
  unfold handleKeyPress.
  destruct (negb (bool_decide (mode p = Free))
            && negb (includes (scaleNotes s) note)).
  { simpl. by intros ?%elem_of_nil. }
  destruct (createChord note (getCurrentChordType p s note)) as [chord|].
  - cbn [snd app]. intros Hin. exists chord. split; [reflexivity|].
    apply elem_of_cons in Hin as [[= -> ->]|Hin]; [by split|].
    apply elem_of_app in Hin as [Hin|Hin].
    + exfalso. revert Hin. unfold bassCalls.
      repeat match goal with
             | |- context [match ?x with _ => _ end] => destruct x
             end;
        intros Hin; try (by apply elem_of_nil in Hin);
        by apply list_elem_of_singleton in Hin.
    + apply elem_of_cons in Hin as [[=]|Hin].
      apply elem_of_cons in Hin as [[=]|Hin].
      by apply elem_of_nil in Hin.
  - simpl. by intros ?%elem_of_nil.
Qed.

Lemma sounded_chord_pitch_classes (p : PianoXLProps) (s : PianoXLState)
  (note : NoteName) (ns : list Z) (sound : InstrumentType) :
  playChord ns sound ∈ snd (handleKeyPress p s note) →
  ∃ chord, createChord note (getCurrentChordType p s note) = Some chord
           ∧ pitchClass <$> ns ≡ₚ pitchClass <$> notes chord.
Proof.
  intros (chord & Hchord & -> & _)%playChord_in_calls.
  exists chord. split; [exact Hchord|].
  by rewrite applyInversion_pitchClass, applyOctave_pitchClass.
Qed.

(** X2.  Octave and inversion never change which pitch classes sound,
    nor how many notes: the notes a key press hands to [playChord] are as
    many as the chord type has offsets, and their pitch classes are those
    of the chord built by [createChord], up to order. *)
Theorem sounded_chord_keeps_pitch_classes
  (p : PianoXLProps) (s : PianoXLState) (note : NoteName)
  (ns : list Z) (sound : InstrumentType) :
  playChord ns sound ∈ snd (handleKeyPress p s note) →
  ∃ chord pattern,
    createChord note (getCurrentChordType p s note) = Some chord
    ∧ prop_lookup CHORD_PATTERNS (chordTypeStr (getCurrentChordType p s note))
      = Some pattern
    ∧ length ns = length pattern
    ∧ pitchClass <$> ns ≡ₚ pitchClass <$> notes chord
    ∧ pitchClass <$> ns
      ≡ₚ (fun off => pitchClass (NOTE_VALUES note + off)) <$> pattern.
Proof.
  intros (chord & Hchord & -> & _)%playChord_in_calls.
  assert (Hc := Hchord). unfold createChord in Hc.
  destruct (prop_lookup CHORD_PATTERNS
              (chordTypeStr (getCurrentChordType p s note))) as [pattern|];
    [|discriminate].
  injection Hc as <-. eexists. exists pattern.
  split; [exact Hchord|]. split; [reflexivity|]. cbn [notes].
  assert (pitchClass
            <$> applyInversion (inversion p)
                  (applyOctave (octave p)
                     (map (fun interval => NOTE_VALUES note + interval + 60)
                          pattern))
          ≡ₚ pitchClass
               <$> map (fun interval => NOTE_VALUES note + interval + 60) pattern)
    as Hpc by (by rewrite applyInversion_pitchClass, applyOctave_pitchClass).
  split; [|split; [exact Hpc|]].
  - rewrite applyInversion_length. unfold applyOctave.
    by rewrite !length_map.
  - rewrite Hpc. clear.
    assert (pitchClass
              <$> map (fun interval => NOTE_VALUES note + interval + 60) pattern
            = (fun off => pitchClass (NOTE_VALUES note + off)) <$> pattern)
      as ->; [|reflexivity].
    induction pattern as [|off rest IH]; [reflexivity|].
    simpl. f_equal; [|exact IH]. unfold pitchClass.
    replace (NOTE_VALUES note + off + 60)
      with (NOTE_VALUES note + off + 5 * 12) by lia.
    apply Z.mod_add. lia.
Qed.

(** G7 (fifth degree of C major, cursor moved to the second type) one
    octave down, second inversion: D F G B sound, no other pitch class. *)
Lemma sounded_chord_keeps_pitch_classes_witness :
  let p := mkProps NC Major (-1) 2 piano false None in
  let s := adjustLastChordType p (fst (handleKeyPress p (mounted p) NG)) up in
  playChord [62; 65; 67; 71] piano ∈ snd (handleKeyPress p s NG)
  ∧ ∃ chord pattern,
      createChord NG (getCurrentChordType p s NG) = Some chord
      ∧ prop_lookup CHORD_PATTERNS (chordTypeStr (getCurrentChordType p s NG))
        = Some pattern
      ∧ length [62; 65; 67; 71] = length pattern
      ∧ pitchClass <$> [62; 65; 67; 71] ≡ₚ pitchClass <$> notes chord
      ∧ pitchClass <$> [62; 65; 67; 71]
        ≡ₚ (fun off => pitchClass (NOTE_VALUES NG + off)) <$> pattern.
Proof.
  intros p s.
  assert (playChord [62; 65; 67; 71] piano ∈ snd (handleKeyPress p s NG))
    as Hin by compute_done.
  split; [exact Hin|].
  exact (sounded_chord_keeps_pitch_classes p s NG _ _ Hin).
Defined.

(** ** The mode effect without a mode change *)

(** X3.  When the mode effect runs without a mode change (a key change,
    or the re-run that follows [setPrevMode]) it only recomputes the
    scale from the key: the cursor, the current chord and the last
    pressed note stay as they are, and the only call is
    [onScaleNotesChange] with the new scale. *)
Theorem key_change_keeps_cursor (p : PianoXLProps) (s : PianoXLState) :
  mode p = prevMode s →
  modeEffect p s
  = ({| scaleNotes := getScaleNotes (selectedKey p) (mode p);
        currentChord := currentChord s;
        lastPressedNote := lastPressedNote s;
        chordTypeIndices := chordTypeIndices s;
        prevMode := prevMode s |},
     [onScaleNotesChange (getScaleNotes (selectedKey p) (mode p))]).
Proof.
  intros Hsame. unfold modeEffect.
  rewrite (bool_decide_eq_true_2 _ Hsame). rewrite <- Hsame.
  destruct (bool_decide (mode p = Free)); reflexivity.
Qed.

(** From C major to D major with the cursor of D at 2: D moves from the
    second degree to the first and keeps its cursor. *)
Lemma key_change_keeps_cursor_witness :
  let p := mkProps ND Major 0 0 piano false None in
  let s := mkState (getScaleNotes NC Major) None (Some ND) {[ND := 2]} Major in
  mode p = prevMode s
  ∧ chordTypeIndices (fst (modeEffect p s)) = {[ND := 2]}
  ∧ scaleNotes (fst (modeEffect p s)) = [ND; NE; NFs; NG; NA; NB; NCs]
  ∧ snd (modeEffect p s) = [onScaleNotesChange [ND; NE; NFs; NG; NA; NB; NCs]].
Proof.
  intros p s.
  assert (mode p = prevMode s) as Hsame by reflexivity.
  split; [exact Hsame|].
  rewrite (key_change_keeps_cursor p s Hsame). repeat split.
Defined.

(** ** The cursor and the eligible list *)

Lemma ALL_CHORD_TYPES_complete (t : ChordType) : t ∈ ALL_CHORD_TYPES.
Proof. destruct t; unfold ALL_CHORD_TYPES; compute_done. Qed.

Lemma arr_get_elem_of {A : Type} (arr : list A) (i : Z) (x : A) :
  arr_get arr i = Some x → x ∈ arr.
Proof.
  unfold arr_get. destruct (i <? 0); [discriminate|].
  intros Hx. eapply list_elem_of_lookup_2; eauto.
Qed.

Lemma arr_get_in_range {A : Type} (arr : list A) (i : Z) :
  0 ≤ i < arr_length arr → is_Some (arr_get arr i).
Proof.
  unfold arr_get, arr_length. intros Hi.
  rewrite (proj2 (Z.ltb_ge i 0)) by lia.
  apply lookup_lt_is_Some. lia.
Qed.

(** X4.  A cursor saved under another mode or key never selects a type
    outside the current eligible list: in every reachable state, under
    any props, the current chord type of a note whose eligible list is
    not empty is a member of that list; with an empty list it is
    [major]. *)
Theorem current_type_is_eligible
  (p : PianoXLProps) (s : PianoXLState) (note : NoteName) :
  reachable s →
  (getAvailableChordTypes p s note ≠ [] →
   getCurrentChordType p s note ∈ getAvailableChordTypes p s note)
  ∧ (getAvailableChordTypes p s note = [] →
     getCurrentChordType p s note = ct_major).
Proof.
  intros Hreach.
  assert (0 ≤ default 0 (chordTypeIndices s !! note)) as Hcur.
  { destruct (chordTypeIndices s !! note) as [j|] eqn:Hj; simpl; [|lia].
    by apply (cursor_entries_nonneg s Hreach note). }
  unfold getCurrentChordType.
  destruct (bool_decide (mode p = Free)) eqn:Hfree.
  - assert (getAvailableChordTypes p s note = ALL_CHORD_TYPES) as ->
        by (unfold getAvailableChordTypes; by rewrite Hfree).
    split; [intros _; apply ALL_CHORD_TYPES_complete | discriminate].
  - split.
    + intros Hne.
      set (types := getAvailableChordTypes p s note) in *.
      assert (0 < arr_length types) as Hlen
          by (unfold arr_length; destruct types; [congruence | simpl; lia]).
      rewrite (proj2 (Z.eqb_neq (arr_length types) 0)) by lia.
      destruct (arr_get_in_range types
                  (Z.rem (default 0 (chordTypeIndices s !! note))
                         (arr_length types))) as [t Ht].
      { rewrite Z.rem_mod_nonneg by lia. apply Z.mod_pos_bound. lia. }
      rewrite Ht. simpl. by apply arr_get_elem_of in Ht.
    + intros ->. reflexivity.
Qed.

(** C major, C's cursor moved to 3 ([add9]); after the key changes to F
    major, C is the fifth degree with three eligible types and reads
    index 3 mod 3, the first of them. *)
Lemma current_type_is_eligible_witness :
  let pC := mkProps NC Major 0 0 piano false None in
  let pF := mkProps NF Major 0 0 piano false None in
  let s := fst (modeEffect pF
                  (adjustLastChordType pC
                     (fst (onPressIn pC (mounted pC) NC)) down)) in
  reachable s
  ∧ chordTypeIndices s !! NC = Some 3
  ∧ getAvailableChordTypes pF s NC = [ct_major; ct_7; ct_9]
  ∧ getCurrentChordType pF s NC ∈ getAvailableChordTypes pF s NC.
Proof.
  intros pC pF s.
  assert (reachable s) as Hreach.
  { apply reach_effect, reach_adjust, reach_press.
    apply (reach_effect pC), reach_mount. }
  split; [exact Hreach|]. split; [reflexivity|]. split; [reflexivity|].
  apply (current_type_is_eligible pF s NC Hreach). discriminate.
Defined.

(** Stepping the cursor of the last pressed note, for a non-empty
    eligible list. *)
Lemma adjustLastChordType_step (p : PianoXLProps) (s : PianoXLState)
  (direction : Direction) (note : NoteName) :
  lastPressedNote s = Some note →
  getAvailableChordTypes p s note ≠ [] →
  adjustLastChordType p s direction
  = {| scaleNotes := scaleNotes s;
       currentChord := currentChord s;
       lastPressedNote := Some note;
       chordTypeIndices :=
         <[note := match direction with
                   | up => Z.rem (default 0 (chordTypeIndices s !! note) + 1)
                                 (arr_length (getAvailableChordTypes p s note))
                   | down =>
                     Z.rem (default 0 (chordTypeIndices s !! note) - 1
                            + arr_length (getAvailableChordTypes p s note))
                           (arr_length (getAvailableChordTypes p s note))
                   end]> (chordTypeIndices s);
       prevMode := prevMode s |}.
Proof.
  intros Hlast Hne. unfold adjustLastChordType.
  rewrite Hlast, availableTypes_recomputed.
  destruct (negb (bool_decide (mode p = Free))
            && negb (includes (scaleNotes s) note)) eqn:Hout.
  { apply getAvailableChordTypes_out_of_scale in Hout. contradiction. }
  assert (arr_length (getAvailableChordTypes p s note) ≠ 0) as Hlen.
  { unfold arr_length.
    destruct (getAvailableChordTypes p s note); [congruence | simpl; lia]. }
  by rewrite (proj2 (Z.eqb_neq _ 0) Hlen).
Qed.

(** The eligible list depends on the state through the scale only. *)
Lemma getAvailableChordTypes_scale (p : PianoXLProps) (s s' : PianoXLState)
  (note : NoteName) :
  scaleNotes s' = scaleNotes s →
  getAvailableChordTypes p s' note = getAvailableChordTypes p s note.
Proof. intros Hs. unfold getAvailableChordTypes. by rewrite Hs. Qed.

(** X5.  [+] then [-] (and [-] then [+]) on the last pressed note puts
    its cursor back where it was, and with it the current chord type,
    whenever the cursor was inside the eligible list. *)
Theorem adjust_up_down_round_trip
  (p : PianoXLProps) (s : PianoXLState) (note : NoteName) :
  lastPressedNote s = Some note →
  0 ≤ default 0 (chordTypeIndices s !! note)
    < arr_length (getAvailableChordTypes p s note) →
  let upDown := adjustLastChordType p (adjustLastChordType p s up) down in
  let downUp := adjustLastChordType p (adjustLastChordType p s down) up in
  chordTypeIndices upDown
  = <[note := default 0 (chordTypeIndices s !! note)]> (chordTypeIndices s)
  ∧ chordTypeIndices downUp
    = <[note := default 0 (chordTypeIndices s !! note)]> (chordTypeIndices s)
  ∧ getCurrentChordType p upDown note = getCurrentChordType p s note
  ∧ getCurrentChordType p downUp note = getCurrentChordType p s note.
Proof.
  intros Hlast Hcur.
  set (cur := default 0 (chordTypeIndices s !! note)) in *.
  set (types := getAvailableChordTypes p s note) in *.
  set (len := arr_length types) in *.
  assert (types ≠ []) as Hne.
  { intros Hnil. subst len. rewrite Hnil in Hcur. unfold arr_length in Hcur.
    simpl in Hcur. lia. }
  assert (∀ d,
    let s1 := adjustLastChordType p s d in
    let d' := match d with up => down | down => up end in
    chordTypeIndices (adjustLastChordType p s1 d')
    = <[note := cur]> (chordTypeIndices s)) as Hround.
  { intros d. cbv zeta.
    rewrite (adjustLastChordType_step p s d note Hlast Hne).
    fold types len cur.
    rewrite (adjustLastChordType_step p _ _ note); cbn [lastPressedNote scaleNotes];
      [|reflexivity|by rewrite (getAvailableChordTypes_scale p s _)].
    rewrite (getAvailableChordTypes_scale p s _) by reflexivity.
    fold types len. cbn [chordTypeIndices].
    rewrite lookup_insert_eq, insert_insert_eq. simpl default. f_equal.
    destruct d.
    - rewrite (Z.rem_mod_nonneg (cur + 1)) by lia.
      assert (0 ≤ (cur + 1) `mod` len < len) by (apply Z.mod_pos_bound; lia).
      rewrite Z.rem_mod_nonneg by lia.
      replace ((cur + 1) `mod` len - 1 + len)
        with ((cur + 1) `mod` len + (len - 1)) by lia.
      rewrite Z.add_mod_idemp_l by lia.
      replace (cur + 1 + (len - 1)) with (cur + 1 * len) by lia.
      rewrite Z.mod_add by lia. apply Z.mod_small. lia.
    - rewrite (Z.rem_mod_nonneg (cur - 1 + len)) by lia.
      assert (0 ≤ (cur - 1 + len) `mod` len < len)
        by (apply Z.mod_pos_bound; lia).
      rewrite Z.rem_mod_nonneg by lia.
      rewrite Z.add_mod_idemp_l by lia.
      replace (cur - 1 + len + 1) with (cur + 1 * len) by lia.
      rewrite Z.mod_add by lia. apply Z.mod_small. lia. }
  assert (∀ s', scaleNotes s' = scaleNotes s →
                chordTypeIndices s' = <[note := cur]> (chordTypeIndices s) →
                getCurrentChordType p s' note = getCurrentChordType p s note)
    as Htype.
  { intros s' Hscale Hidx. unfold getCurrentChordType.
    rewrite (getAvailableChordTypes_scale p s s' note Hscale), Hidx.
    rewrite lookup_insert_eq. reflexivity. }
  assert (∀ d d', scaleNotes (adjustLastChordType p (adjustLastChordType p s d) d')
                  = scaleNotes s) as Hscale.
  { intros d d'.
    rewrite (adjustLastChordType_step p s d note Hlast Hne).
    rewrite (adjustLastChordType_step p _ _ note); cbn [lastPressedNote scaleNotes];
      [reflexivity|reflexivity|by rewrite (getAvailableChordTypes_scale p s _)]. }
  cbv zeta. split; [exact (Hround up)|]. split; [exact (Hround down)|].
  split.
  - apply Htype; [apply Hscale | exact (Hround up)].
  - apply Htype; [apply Hscale | exact (Hround down)].
Qed.

(** C major, C pressed: from the fresh cursor, up-down and down-up both
    return to index 0 and the major triad. *)
Lemma adjust_up_down_round_trip_witness :
  let p := mkProps NC Major 0 0 piano false None in
  let s := fst (handleKeyPress p (mounted p) NC) in
  lastPressedNote s = Some NC
  ∧ chordTypeIndices (adjustLastChordType p (adjustLastChordType p s up) down)
    = <[NC := 0]> (chordTypeIndices s)
  ∧ chordTypeIndices (adjustLastChordType p (adjustLastChordType p s down) up)
    = <[NC := 0]> (chordTypeIndices s)
  ∧ getCurrentChordType p
      (adjustLastChordType p (adjustLastChordType p s up) down) NC = ct_major.
Proof.
  intros p s.
  assert (lastPressedNote s = Some NC) as Hlast by reflexivity.
  assert (0 ≤ default 0 (chordTypeIndices s !! NC)
          < arr_length (getAvailableChordTypes p s NC)) as Hcur
      by (vm_compute; split; [discriminate | reflexivity]).
  split; [exact Hlast|].
  destruct (adjust_up_down_round_trip p s NC Hlast Hcur)
    as (Hud & Hdu & Htype & _).
  split; [exact Hud|]. split; [exact Hdu|]. exact Htype.
Defined.

(** ** The bass suffix of the chord name *)

Lemma allNotes_at (i : Z) :
  0 ≤ i < 12 →
  ∃ n, arr_get allNotes i = Some n ∧ NOTE_VALUES n = i ∧ n ∈ allNotes.
Proof.
  intros Hi.
  assert (i = 0 ∨ i = 1 ∨ i = 2 ∨ i = 3 ∨ i = 4 ∨ i = 5 ∨ i = 6 ∨ i = 7
          ∨ i = 8 ∨ i = 9 ∨ i = 10 ∨ i = 11) as Hcases by lia.
  repeat destruct Hcases as [->|Hcases]; try subst i;
    eexists; (split; [reflexivity|]); (split; [reflexivity|]); compute_done.
Qed.

(** X6.  For a numeric bass offset whose sum with the root index is not
    negative, the label and the sound agree: the suffix that
    [getBassNote] appends is a slash and the sharp spelling of a pitch
    class, and the pitch that the key press hands to [playBassNote] is
    that pitch class in the octave starting at 48. *)
Theorem bass_label_names_bass_pitch
  (p : PianoXLProps) (s : PianoXLState) (note : NoteName) (off b : Z) :
  selectedBassOffset p = Some off → off ≠ 0 →
  0 ≤ NOTE_VALUES note + off →
  playBassNote b ∈ snd (handleKeyPress p s note) →
  ∃ bassName,
    bassName ∈ allNotes
    ∧ getBassNote note (selectedBassOffset p) = ("/" ++ noteStr bassName)%string
    ∧ b = 48 + NOTE_VALUES bassName.
Proof.
  intros Hoff Hnz Hsum Hin.
  destruct (numeric_bass_pitch p s note off b Hoff Hnz Hin) as [Hb _].
  apply playBassNote_in_calls in Hin as (chord & _ & Hin).
  assert (indexOf allNotes note = NOTE_VALUES note) as Hidx.
  { revert Hin. unfold bassCalls. rewrite Hoff.
    destruct (bool_decide (lastPressedNote s = Some note));
      [|by intros ?%elem_of_nil].
    destruct (Z.eqb_spec (indexOf allNotes note) (-1)) as [|Hne];
      [by intros ?%elem_of_nil|].
    intros _. apply indexOf_allNotes.
    destruct (indexOf_from_spec allNotes note 0) as [[_ Hm]|(i & _ & Hl & _)].
    - unfold indexOf in Hne. contradiction.
    - eapply list_elem_of_lookup_2; eauto. }
  destruct (allNotes_at (Z.rem (NOTE_VALUES note + off) 12))
    as (bassName & Hget & Hval & Hmem).
  { rewrite Z.rem_mod_nonneg by lia. apply Z.mod_pos_bound. lia. }
  exists bassName. split; [exact Hmem|]. split; [|lia].
  rewrite Hoff. unfold getBassNote.
  rewrite (proj2 (Z.eqb_neq off 0) Hnz), Hidx.
  rewrite (proj2 (Z.eqb_neq (NOTE_VALUES note) (-1)))
    by (destruct note; discriminate).
  by rewrite Hget.
Qed.

(** A with bass offset +5: the label reads "A/D", the bass sounds at
    50, the D above 48. *)
Lemma bass_label_names_bass_pitch_witness :
  let p := mkProps NC Free 0 0 piano false (Some 5) in
  let s := fst (handleKeyPress p (mounted p) NA) in
  selectedBassOffset p = Some 5
  ∧ playBassNote 50 ∈ snd (handleKeyPress p s NA)
  ∧ getChordName p s NA = "A/D"
  ∧ ∃ bassName,
      bassName ∈ allNotes
      ∧ getBassNote NA (selectedBassOffset p) = ("/" ++ noteStr bassName)%string
      ∧ 50 = 48 + NOTE_VALUES bassName.
Proof.
  intros p s.
  assert (playBassNote 50 ∈ snd (handleKeyPress p s NA)) as Hin by compute_done.
  split; [reflexivity|]. split; [exact Hin|]. split; [reflexivity|].
  apply (bass_label_names_bass_pitch p s NA 5 50);
    [reflexivity | discriminate | vm_compute; discriminate | exact Hin].
Defined.

(** ** Key presses and releases *)

Lemma noteStr_nonempty (n : NoteName) : ∃ c rest, noteStr n = String c rest.
Proof. destruct n; simpl; eauto. Qed.

(** X7.  A key press reports what it plays.  Whenever [handleKeyPress]
    calls [playChord], it does so first and with the selected sound, the
    chord it stores as [currentChord] and reports through
    [onChordChange] has exactly the notes played, the pressed note as its
    root and a non-empty name, and [onNoteSelect] is told the pressed
    note.  The scale, the cursor and [prevMode] are never touched. *)
Theorem key_press_reports_what_it_plays
  (p : PianoXLProps) (s : PianoXLState) (note : NoteName)
  (ns : list Z) (sound : InstrumentType) :
  playChord ns sound ∈ snd (handleKeyPress p s note) →
  let s' := fst (handleKeyPress p s note) in
  let calls := snd (handleKeyPress p s note) in
  head calls = Some (playChord ns (selectedSound p))
  ∧ sound = selectedSound p
  ∧ (∃ chord, currentChord s' = Some chord
              ∧ notes chord = ns ∧ root chord = note
              ∧ type chord = getCurrentChordType p s note
              ∧ name chord = getChordName p s note
              ∧ name chord ≠ ""
              ∧ onChordChange (Some chord) ∈ calls)
  ∧ onNoteSelect note ∈ calls
  ∧ lastPressedNote s' = Some note
  ∧ scaleNotes s' = scaleNotes s
  ∧ chordTypeIndices s' = chordTypeIndices s
  ∧ prevMode s' = prevMode s.
Proof.
  intros Hin. destruct (playChord_in_calls _ _ _ _ _ Hin) as (chord & Hchord & -> & ->).
  cbv zeta. unfold handleKeyPress in *.
  destruct (negb (bool_decide (mode p = Free))
            && negb (includes (scaleNotes s) note)) eqn:Hguard.
  { simpl in Hin. by apply elem_of_nil in Hin. }
  rewrite Hchord. cbn [fst snd app head].
  destruct (createChord_notes _ _ _ Hchord) as (_ & _ & Hroot & Htype).
  split; [reflexivity|]. split; [reflexivity|]. split.
  - eexists. split; [reflexivity|]. cbn [notes root type name].
    repeat split; try assumption.
    + unfold getChordName. rewrite Hguard.
      destruct (noteStr_nonempty (convertNoteDisplay p note)) as (c & rest & ->).
      destruct (bool_decide (lastPressedNote s = Some note)
                && bool_decide (selectedBassOffset p ≠ None)); discriminate.
    + apply list_elem_of_further, elem_of_app. right. apply list_elem_of_here.
  - split; [|by repeat split].
    apply list_elem_of_further, elem_of_app. right.
    apply list_elem_of_further, list_elem_of_here.
Qed.

(** D minor seventh in C major, first inversion. *)
Lemma key_press_reports_what_it_plays_witness :
  let p := mkProps NC Major 0 1 rhodes false None in
  let s := adjustLastChordType p (fst (handleKeyPress p (mounted p) ND)) up in
  playChord [65; 69; 72; 74] rhodes ∈ snd (handleKeyPress p s ND)
  ∧ currentChord (fst (handleKeyPress p s ND))
    = Some (mkChord ND ct_minor7 [65; 69; 72; 74] "Dm7")
  ∧ head (snd (handleKeyPress p s ND)) = Some (playChord [65; 69; 72; 74] rhodes).
Proof.
  intros p s.
  assert (playChord [65; 69; 72; 74] rhodes ∈ snd (handleKeyPress p s ND))
    as Hin by compute_done.
  split; [exact Hin|]. split; [reflexivity|].
  apply (key_press_reports_what_it_plays p s ND _ _ Hin).
Defined.

(** X8.  A release stops the sound and clears the chord and nothing
    else: [onPressOut] calls [stopChord] and reports no chord, leaves the
    scale, the cursor, [prevMode] and the last pressed note as they are,
    so that the +/- handle still acts on the released note; and releasing
    twice is releasing once. *)
Theorem release_keeps_last_pressed_note
  (p : PianoXLProps) (s : PianoXLState) (direction : Direction) :
  let s' := fst (onPressOut s) in
  snd (onPressOut s) = [stopChord; onChordChange None]
  ∧ currentChord s' = None
  ∧ lastPressedNote s' = lastPressedNote s
  ∧ chordTypeIndices s' = chordTypeIndices s
  ∧ scaleNotes s' = scaleNotes s
  ∧ prevMode s' = prevMode s
  ∧ fst (onPressOut s') = s'
  ∧ chordTypeIndices (adjustLastChordType p s' direction)
    = chordTypeIndices (adjustLastChordType p s direction).
Proof.
  cbv zeta. repeat split.
  unfold adjustLastChordType, onPressOut. cbn [fst lastPressedNote].
  destruct (lastPressedNote s) as [lastNote|]; [|reflexivity].
  rewrite !availableTypes_recomputed.
  rewrite (getAvailableChordTypes_scale p s _ lastNote) by reflexivity.
  cbn [scaleNotes chordTypeIndices].
  repeat match goal with
         | |- context [if ?b then _ else _] => destruct b
         end; reflexivity.
Qed.

(** ** Flat spelling of the labels *)

Lemma replaceSharps_keep (c : ascii) (rest : string) :
  isAtoG c && startsWithSharp rest = false →
  replaceSharps (String c rest) = String c (replaceSharps rest).
Proof.
  intros Hno. destruct rest as [|c' r]; [reflexivity|].
  destruct (Ascii.eqb_spec c' "#") as [->|Hne].
  - simpl in Hno. rewrite andb_true_r in Hno.
    cbn [replaceSharps]. rewrite Hno. reflexivity.
  - clear Hno.
    destruct c' as [[] [] [] [] [] [] [] []]; try reflexivity.
    contradiction.
Qed.

Lemma replaceSharps_match (c : ascii) (r : string) :
  isAtoG c = true →
  replaceSharps (String c (String "#" r))
  = (match noteOfStr (String c "#") with
     | Some n => noteStr (sharpToFlatMap n)
     | None => "undefined"
     end ++ replaceSharps r)%string.
Proof. intros Hc. cbn [replaceSharps]. by rewrite Hc. Qed.

(** What a replacement text does to the search for a further match. *)
Lemma replacement_has_no_match (c : ascii) (t : string) :
  isAtoG c = true →
  let text := match noteOfStr (String c "#") with
              | Some n => noteStr (sharpToFlatMap n)
              | None => "undefined"
              end in
  hasSharpName (text ++ t) = hasSharpName t
  ∧ startsWithSharp (text ++ t) = false
  ∧ Ascii.eqb c "#" = false.
Proof.
  destruct c as [[] [] [] [] [] [] [] []]; intros Hc; try discriminate Hc;
    cbv zeta; repeat split.
Qed.

Lemma replaceSharps_no_match_upto (n : nat) (str : string) :
  (String.length str ≤ n)%nat →
  hasSharpName (replaceSharps str) = false
  ∧ startsWithSharp (replaceSharps str) = startsWithSharp str
  ∧ (hasSharpName str = false → replaceSharps str = str).
Proof.
  revert str. induction n as [|n IH]; intros str Hlen.
  { destruct str; [by repeat split | simpl in Hlen; lia]. }
  destruct str as [|c rest]; [by repeat split|].
  simpl in Hlen.
  destruct (isAtoG c && startsWithSharp rest) eqn:Hhead.
  - apply andb_true_iff in Hhead as [Hc Hsharp].
    destruct rest as [|c' r]; [discriminate|]. simpl in Hsharp.
    apply Ascii.eqb_eq in Hsharp as ->.
    rewrite (replaceSharps_match c r Hc).
    destruct (replacement_has_no_match c (replaceSharps r) Hc)
      as (Hhas & Hstart & Hc').
    simpl in Hlen. destruct (IH r) as (IHhas & _ & _); [lia|].
    split; [by rewrite Hhas|]. split; [by rewrite Hstart; simpl; rewrite Hc'|].
    simpl. rewrite Hc. discriminate.
  - rewrite (replaceSharps_keep c rest Hhead).
    destruct (IH rest) as (IHhas & IHstart & IHid); [lia|].
    split; [|split].
    + simpl. by rewrite IHstart, Hhead, IHhas.
    + reflexivity.
    + simpl. rewrite Hhead. simpl. intros Hrest. by rewrite IHid.
Qed.

(** X9.  The flat display leaves no sharp note name: after
    [replaceSharps] no letter A-G is followed by a sharp sign, a text
    that has none is returned as it is, so replacing twice is replacing
    once; in particular no key label shown in free mode with [useFlats]
    spells a note with a sharp. *)
Theorem replaceSharps_leaves_no_sharp_name (str : string) :
  hasSharpName (replaceSharps str) = false
  ∧ (hasSharpName str = false → replaceSharps str = str)
  ∧ replaceSharps (replaceSharps str) = replaceSharps str
  ∧ ∀ p s note, mode p = Free → useFlats p = true →
      hasSharpName (displayChordName p s note) = false.
Proof.
  assert (∀ t, hasSharpName (replaceSharps t) = false
               ∧ (hasSharpName t = false → replaceSharps t = t)) as Hall.
  { intros t.
    destruct (replaceSharps_no_match_upto (String.length t) t) as (H1 & _ & H2);
      [lia | by split]. }
  split; [apply Hall|]. split; [apply Hall|]. split.
  - apply Hall, Hall.
  - intros p s note Hfree Hflats. unfold displayChordName.
    rewrite (bool_decide_eq_true_2 _ Hfree), Hflats. apply Hall.
Qed.

(** F# with bass offset -3 in free mode: "F#/D#" is shown as "Gb/Eb". *)
Lemma replaceSharps_leaves_no_sharp_name_witness :
  let p := mkProps NC Free 0 0 piano true (Some (-3)) in
  let s := fst (handleKeyPress p (mounted p) NFs) in
  replaceSharps "F#/D#" = "Gb/Eb"
  ∧ keyLabel p s NFs = Some "Gb/Eb"
  ∧ hasSharpName (displayChordName p s NFs) = false.
Proof.
  intros p s. split; [reflexivity|]. split; [reflexivity|].
  apply (replaceSharps_leaves_no_sharp_name ""); reflexivity.
Defined.

(** ** Default chords and the scale *)

Lemma mounted_eq (p : PianoXLProps) :
  mounted p
  = {| scaleNotes := getScaleNotes (selectedKey p) (mode p);
       currentChord := None;
       lastPressedNote := None;
       chordTypeIndices := ∅;
       prevMode := mode p |}.
Proof.
  unfold mounted, modeEffect, initialState. cbn [prevMode].
  rewrite (bool_decide_eq_true_2 (mode p = mode p)) by reflexivity.
  destruct (bool_decide (mode p = Free)); reflexivity.
Qed.

Lemma mounted_scaleNotes (p : PianoXLProps) :
  scaleNotes (mounted p) = getScaleNotes (selectedKey p) (mode p).
Proof. by rewrite mounted_eq. Qed.

Lemma mounted_chordTypeIndices (p : PianoXLProps) :
  chordTypeIndices (mounted p) = ∅.
Proof. by rewrite mounted_eq. Qed.

(** The current chord type depends on the props through the mode, and on
    the state through the scale and the cursor of the note. *)
Lemma getCurrentChordType_ext (p p' : PianoXLProps) (s s' : PianoXLState)
  (note : NoteName) :
  mode p = mode p' → scaleNotes s = scaleNotes s' →
  chordTypeIndices s !! note = chordTypeIndices s' !! note →
  getCurrentChordType p s note = getCurrentChordType p' s' note.
Proof.
  intros Hm Hs Hi. unfold getCurrentChordType, getAvailableChordTypes.
  by rewrite Hm, Hs, Hi.
Qed.

(** The default chord of every note of a major or minor scale, checked
    key by key and note by note. *)
Lemma diatonicDefault_all (key note : NoteName) :
  diatonicDefault key Major note = true ∧ diatonicDefault key Minor note = true.
Proof. destruct key, note; vm_compute; split; reflexivity. Qed.

Lemma diatonicDefault_spec (key : NoteName) (m : MusicMode) (note : NoteName)
  (chord : Chord) :
  diatonicDefault key m note = true →
  includes (getScaleNotes key m) note = true →
  createChord note
    (getCurrentChordType (mkProps key m 0 0 piano false None)
       (mounted (mkProps key m 0 0 piano false None)) note) = Some chord →
  Forall (fun n => pitchClass n ∈ NOTE_VALUES <$> getScaleNotes key m)
         (notes chord).
Proof.
  unfold diatonicDefault. cbv zeta. intros Hcheck Hin Hchord.
  rewrite Hin, Hchord in Hcheck. cbn [negb orb] in Hcheck.
  rewrite forallb_forall in Hcheck. apply Forall_forall.
  intros n Hn%list_elem_of_In. specialize (Hcheck n Hn).
  by apply bool_decide_eq_true in Hcheck.
Qed.

(** X10.  In major and in minor mode the default chord of every key is
    diatonic: right after mounting (cursor empty), whatever the key, the
    octave and the inversion, every note that a key press plays has a
    pitch class of the active scale. *)
Theorem default_chords_are_diatonic
  (p : PianoXLProps) (note : NoteName) (ns : list Z) (sound : InstrumentType) :
  mode p = Major ∨ mode p = Minor →
  playChord ns sound ∈ snd (handleKeyPress p (mounted p) note) →
  Forall (fun n => pitchClass n ∈ NOTE_VALUES <$> scaleNotes (mounted p)) ns.
Proof.
  intros Hmode Hin.
  assert (includes (scaleNotes (mounted p)) note = true) as Hscale.
  { revert Hin. unfold handleKeyPress.
    assert (bool_decide (mode p = Free) = false) as Hfree
        by (apply bool_decide_eq_false; destruct Hmode; congruence).
    rewrite Hfree.
    destruct (includes (scaleNotes (mounted p)) note).
    - intros _. reflexivity.
    - cbn [negb andb snd]. intros Hnil. apply elem_of_nil in Hnil.
      destruct Hnil. }
  destruct (sounded_chord_pitch_classes _ _ _ _ _ Hin)
    as (chord & Hchord & Hperm).
  change (Forall ((fun c => c ∈ NOTE_VALUES <$> scaleNotes (mounted p))
                  ∘ pitchClass) ns).
  apply Forall_fmap. rewrite Hperm. apply Forall_fmap.
  rewrite mounted_scaleNotes in *.
  assert (diatonicDefault (selectedKey p) (mode p) note = true) as Hcheck
      by (destruct Hmode as [->| ->];
          [exact (proj1 (diatonicDefault_all _ _))
          | exact (proj2 (diatonicDefault_all _ _))]).
  apply (diatonicDefault_spec _ _ _ _ Hcheck Hscale).
  rewrite <- Hchord. f_equal.
  all: try (apply getCurrentChordType_ext;
            [reflexivity | by rewrite !mounted_scaleNotes
             | by rewrite !mounted_chordTypeIndices]).
Qed.

(** E in C major, one octave up, first inversion: E minor sounds as
    G B E, all in C major. *)
Lemma default_chords_are_diatonic_witness :
  let p := mkProps NC Major 1 1 piano false None in
  (mode p = Major ∨ mode p = Minor)
  ∧ playChord [79; 83; 88] piano ∈ snd (handleKeyPress p (mounted p) NE)
  ∧ Forall (fun n => pitchClass n ∈ NOTE_VALUES <$> scaleNotes (mounted p))
           [79; 83; 88].
Proof.
  intros p.
  assert (mode p = Major ∨ mode p = Minor) as Hmode by (by left).
  assert (playChord [79; 83; 88] piano ∈ snd (handleKeyPress p (mounted p) NE))
    as Hin by compute_done.
  split; [exact Hmode|]. split; [exact Hin|].
  exact (default_chords_are_diatonic p NE _ _ Hmode Hin).
Defined.

(** ** Relative keys *)

Lemma getRelativeKey_in_allNotes (key k : NoteName) (m m' : MusicMode) :
  getRelativeKey key m = Some (k, m') → k ∈ allNotes.
Proof.
  unfold getRelativeKey.
  destruct (negb (bool_decide (m = Major)) && negb (bool_decide (m = Minor)));
    [discriminate|].
  destruct (bool_decide (m = Minor)).
  - destruct (arr_get allNotes _) as [k0|] eqn:Hget; [|discriminate].
    intros [= <- _]. by apply arr_get_elem_of in Hget.
  - destruct (arr_get allNotes _) as [k0|] eqn:Hget; [|discriminate].
    intros [= <- _]. by apply arr_get_elem_of in Hget.
Qed.

(** The key of the result is always defined in major and minor mode,
    also for a flat-spelled key. *)
Lemma getRelativeKey_defined (key : NoteName) (m : MusicMode) :
  m = Major ∨ m = Minor → is_Some (getRelativeKey key m).
Proof. intros [-> | ->]; destruct key; vm_compute; eauto. Qed.

(** X11.  [getRelativeKey] answers only in major and minor mode.  There,
    for each of the twelve sharp-spelled keys, it gives a sharp-spelled
    key in the other of the two modes whose scale has exactly the same
    notes, and asking again gives back the key and mode one started
    from. *)
Theorem getRelativeKey_round_trip (key : NoteName) (m : MusicMode) :
  (m ≠ Major → m ≠ Minor → getRelativeKey key m = None)
  ∧ (key ∈ allNotes → m = Major ∨ m = Minor →
     ∃ key' m',
       getRelativeKey key m = Some (key', m')
       ∧ m' ≠ m ∧ (m' = Major ∨ m' = Minor)
       ∧ key' ∈ allNotes
       ∧ getRelativeKey key' m' = Some (key, m)
       ∧ getScaleNotes key' m' ≡ₚ getScaleNotes key m).
Proof.
  split.
  - intros HM Hm. unfold getRelativeKey.
    by rewrite (bool_decide_eq_false_2 _ HM), (bool_decide_eq_false_2 _ Hm).
  - intros Hkey [-> | ->];
      destruct key; try (exfalso; revert Hkey; compute_done);
      eexists; eexists; (split; [reflexivity|]);
      (split; [discriminate|]);
      (split; [first [by left | by right]|]);
      (split; [compute_done|]);
      (split; [reflexivity|]); compute_done.
Qed.

(** C major and A minor. *)
Lemma getRelativeKey_round_trip_witness :
  getRelativeKey NC Major = Some (NA, Minor)
  ∧ getRelativeKey NA Minor = Some (NC, Major)
  ∧ getScaleNotes NA Minor ≡ₚ getScaleNotes NC Major
  ∧ getRelativeKey NC Dorian = None.
Proof.
  destruct (getRelativeKey_round_trip NC Major) as [_ Hrel].
  destruct Hrel as (key' & m' & Hrel & _ & _ & _ & Hback & Hscale);
    [compute_done | by left |].
  assert (key' = NA ∧ m' = Minor) as [-> ->]
      by (vm_compute in Hrel; injection Hrel as <- <-; by split).
  split; [exact Hrel|]. split; [exact Hback|]. split; [exact Hscale|].
  apply (getRelativeKey_round_trip NC Dorian); discriminate.
Defined.

(** ** From the keyboard to the dock *)

Lemma onChordChange_in_calls (p : PianoXLProps) (s : PianoXLState)
  (note : NoteName) (chord : Chord) :
  onChordChange (Some chord) ∈ snd (handleKeyPress p s note) →
  negb (bool_decide (mode p = Free)) && negb (includes (scaleNotes s) note)
  = false
  ∧ name chord = getChordName p s note.
Proof.
  unfold handleKeyPress.
  destruct (negb (bool_decide (mode p = Free))
            && negb (includes (scaleNotes s) note)).
  { cbn [snd]. by intros ?%elem_of_nil. }
  destruct (createChord note (getCurrentChordType p s note)) as [built|].
  - cbn [snd app]. intros Hin. split; [reflexivity|].
    apply elem_of_cons in Hin as [[=]|Hin].
    apply elem_of_app in Hin as [Hin|Hin].
    + exfalso. revert Hin. unfold bassCalls.
      repeat match goal with
             | |- context [match ?x with _ => _ end] => destruct x
             end;
        intros Hin; try (by apply elem_of_nil in Hin);
        by apply list_elem_of_singleton in Hin.
    + apply elem_of_cons in Hin as [[= ->]|Hin]; [reflexivity|].
      apply elem_of_cons in Hin as [[=]|Hin].
      by apply elem_of_nil in Hin.
  - cbn [snd]. by intros ?%elem_of_nil.
Qed.

Lemma getChordName_nonempty (p : PianoXLProps) (s : PianoXLState)
  (note : NoteName) :
  negb (bool_decide (mode p = Free)) && negb (includes (scaleNotes s) note)
  = false →
  getChordName p s note ≠ "".
Proof.
  intros Hguard. unfold getChordName. rewrite Hguard.
  destruct (noteStr_nonempty (convertNoteDisplay p note)) as (c & rest & ->).
  destruct (bool_decide (lastPressedNote s = Some note)
            && bool_decide (selectedBassOffset p ≠ None)); discriminate.
Qed.

(** X12.  Fed with the reports of the keyboard, the dock remembers the
    last sounded chord: every chord that a key press reports has a
    non-empty name, so [handleChordChange] stores that name as
    [lastPlayedChord]; the report of a release (no chord) clears
    [currentChord] and keeps [lastPlayedChord]. *)
Theorem last_played_chord_follows_key_presses
  (p : PianoXLProps) (s : PianoXLState) (note : NoteName) (chord : Chord)
  (d : DockWControls.DockState) :
  onChordChange (Some chord) ∈ snd (handleKeyPress p s note) →
  DockWControls.lastPlayedChord
    (DockWControls.handleChordChange (Some chord) d) = getChordName p s note
  ∧ DockWControls.currentChord
      (DockWControls.handleChordChange (Some chord) d) = Some chord
  ∧ DockWControls.lastPlayedChord
      (DockWControls.handleChordChange None
         (DockWControls.handleChordChange (Some chord) d))
    = getChordName p s note
  ∧ DockWControls.currentChord
      (DockWControls.handleChordChange None
         (DockWControls.handleChordChange (Some chord) d)) = None.
Proof.
  intros (Hguard & Hname)%onChordChange_in_calls.
  assert (name chord ≠ "") as Hne
      by (rewrite Hname; by apply getChordName_nonempty).
  unfold DockWControls.handleChordChange.
  rewrite (bool_decide_eq_false_2 _ Hne). by rewrite <- Hname.
Qed.

(** G in C major: the dock remembers "G" across the release. *)
Lemma last_played_chord_follows_key_presses_witness :
  let p := mkProps NC Major 0 0 piano false None in
  let chord := mkChord NG ct_major [67; 71; 74] "G" in
  onChordChange (Some chord) ∈ snd (handleKeyPress p (mounted p) NG)
  ∧ DockWControls.lastPlayedChord
      (DockWControls.handleChordChange None
         (DockWControls.handleChordChange (Some chord)
            DockWControls.initialDock)) = "G".
Proof.
  intros p chord.
  assert (onChordChange (Some chord) ∈ snd (handleKeyPress p (mounted p) NG))
    as Hin by compute_done.
  split; [exact Hin|].
  apply (last_played_chord_follows_key_presses p (mounted p) NG chord
           DockWControls.initialDock Hin).
Defined.

(** ** The dock and its controls *)

Module DockProps.

Import DockWControls.

Lemma pick_elem_of {A : Type} (arr : list A) (i : Z) (current : A) :
  current ∈ arr → pick arr i current ∈ arr.
Proof.
  intros Hcur. unfold pick.
  destruct (arr_get arr i) as [x|] eqn:Hget; [|exact Hcur].
  by apply arr_get_elem_of in Hget.
Qed.

Lemma longPress_settingsInRange (label : SettingLabel) (d : DockState) :
  settingsInRange d → settingsInRange (longPress label d).
Proof.
  intros Hd. unfold longPress, handleItemLongPress.
  destruct label; cbn [fold_left app panelCallback].
  - destruct (bool_decide (mode d = Major) || bool_decide (mode d = Minor)).
    + destruct (getRelativeKey (selectedKey d) (mode d)) as [[k m]|] eqn:Hrel;
        cbn [fold_left app panelCallback]; [|exact Hd].
      apply getRelativeKey_in_allNotes in Hrel. in_range.
    + destruct (bool_decide (mode d = Free));
        cbn [fold_left app panelCallback]; in_range.
  - destruct (negb (bool_decide (mode d = Free)));
      cbn [fold_left app panelCallback]; in_range.
  - exact Hd.
  - exact Hd.
Qed.

Lemma gesture_settingsInRange (g : Gesture) (d : DockState) :
  settingsInRange d → settingsInRange (gesture g d).
Proof.
  intros Hd.
  destruct g; cbn [gesture]; try (by apply longPress_settingsInRange).
  - unfold handlePlus. destruct (selectedControl d) as [[]|];
      [| | | | |destruct refReady];
      try destruct (bool_decide (lastPlayedChord d = "")) eqn:?;
      in_range; rewrite ?Heqb; in_range.
    all: apply pick_elem_of; tauto.
  - unfold handleMinus. destruct (selectedControl d) as [[]|];
      [| | | | |destruct refReady];
      try destruct (bool_decide (lastPlayedChord d = "")) eqn:?;
      in_range; rewrite ?Heqb; in_range.
    all: apply pick_elem_of; tauto.
  - in_range.
  - in_range.
  - in_range.
  - in_range.
  - unfold handleBassPress.
    repeat match goal with
           | |- context [if ?b then _ else _] => destruct b
           | |- context [match ?x with _ => _ end] => destruct x
           end; in_range.
  - unfold handleSoundPress.
    destruct (negb (isSoundWindowSelected d)); in_range.
  - in_range.
  - unfold handleChordChange. destruct chord as [c|]; [|in_range].
    destruct (bool_decide (name c = "")); in_range.
Qed.

(** X13.  No sequence of gestures takes the settings out of range: if
    the octave is within [-2, 2], the inversion within [-3, 3] and the
    key one of the twelve sharp spellings (as in the initial state), they
    still are after any run of plus and minus presses, control
    selections, long presses, sound presses and chord reports. *)
Theorem run_keeps_settings_in_range (gs : list Gesture) (d : DockState) :
  settingsInRange d → settingsInRange (run gs d).
Proof.
  revert d. induction gs as [|g rest IH]; intros d Hd; [exact Hd|].
  unfold run in *. cbn [fold_left]. apply IH.
  by apply gesture_settingsInRange.
Qed.

(** Octave selected and [+] pressed four times from the initial state:
    the octave stops at 2. *)
Lemma run_keeps_settings_in_range_witness :
  settingsInRange initialDock
  ∧ octave (run [gOctavePress; gPlus true; gPlus true; gPlus true; gPlus true]
                initialDock) = 2
  ∧ settingsInRange
      (run [gOctavePress; gPlus true; gPlus true; gPlus true; gPlus true]
           initialDock).
Proof.
  assert (settingsInRange initialDock) as Hinit.
  { unfold settingsInRange. cbn [initialDock octave inversion selectedKey].
    repeat split; try lia. compute_done. }
  split; [exact Hinit|]. split; [reflexivity|].
  exact (run_keeps_settings_in_range _ _ Hinit).
Defined.

Lemma stepBass_selectedBassOffset (i : Z) (d : DockState) :
  selectedBassOffset (stepBass i d)
  = pick BASS_SEQUENCE i (selectedBassOffset d).
Proof. unfold stepBass. destruct (bool_decide _); reflexivity. Qed.

Lemma stepBass_selectedControl (i : Z) (d : DockState) :
  selectedControl (stepBass i d) = selectedControl d.
Proof. unfold stepBass. destruct (bool_decide _); reflexivity. Qed.

Lemma stepBass_settings (i : Z) (d : DockState) :
  selectedKey (stepBass i d) = selectedKey d
  ∧ mode (stepBass i d) = mode d
  ∧ octave (stepBass i d) = octave d
  ∧ inversion (stepBass i d) = inversion d.
Proof. unfold stepBass. destruct (bool_decide _); repeat split. Qed.

(** X14.  On the controls that wrap around (key, mode and bass offset)
    [+] followed by [-], and [-] followed by [+], bring the selection
    back: starting from one of the twelve sharp-spelled keys, and with
    any control other than octave and inversion selected (or none), the
    key, mode, octave, inversion and bass offset are as before. *)
Theorem plus_minus_round_trip (r1 r2 : bool) (d : DockState) :
  selectedKey d ∈ KEYS →
  selectedControl d ≠ Some ctlOctave →
  selectedControl d ≠ Some ctlInversion →
  let pm := fst (handleMinus r2 (fst (handlePlus r1 d))) in
  let mp := fst (handlePlus r2 (fst (handleMinus r1 d))) in
  (selectedKey pm, mode pm, octave pm, inversion pm, selectedBassOffset pm)
  = (selectedKey d, mode d, octave d, inversion d, selectedBassOffset d)
  ∧ (selectedKey mp, mode mp, octave mp, inversion mp, selectedBassOffset mp)
    = (selectedKey d, mode d, octave d, inversion d, selectedBassOffset d).
Proof.
  destruct d as [key m oct inv sound chord ctl flats bass lpc bmap sw ld].
  cbn [selectedKey selectedControl]. intros Hkey Hoct Hinv. cbv zeta.
  unfold handlePlus, handleMinus.
  destruct ctl as [[]|]; try congruence; cbn [selectedControl fst].
  - destruct key; try (exfalso; revert Hkey; compute_done);
      split; reflexivity.
  - destruct m; split; reflexivity.
  - rewrite !stepBass_selectedControl. cbn [selectedControl fst].
    repeat match goal with
           | |- context [selectedKey (stepBass ?i ?x)] =>
             destruct (stepBass_settings i x) as (-> & -> & -> & ->)
           end.
    rewrite !stepBass_selectedBassOffset.
    cbn [selectedKey mode octave inversion selectedBassOffset].
    destruct bass; split; reflexivity.
  - destruct r1, r2; split; reflexivity.
Qed.

(** B with the key control selected: [+] wraps to C, [-] comes back. *)
Lemma plus_minus_round_trip_witness :
  let d := setSelectedControl (Some ctlKey) (setSelectedKey NB initialDock) in
  selectedKey d ∈ KEYS
  ∧ selectedKey (fst (handlePlus true d)) = NC
  ∧ selectedKey (fst (handleMinus true (fst (handlePlus true d)))) = NB.
Proof.
  intros d.
  assert (selectedKey d ∈ KEYS) as Hkey by compute_done.
  split; [exact Hkey|]. split; [reflexivity|].
  destruct (plus_minus_round_trip true true d Hkey) as [Hpm _];
    [discriminate | discriminate |].
  exact (f_equal (fun t => fst (fst (fst (fst t)))) Hpm).
Defined.

(** X15.  The [+] and [-] bars act on the selected control only.  They
    never change which control is selected, the sound, the current chord,
    the flat display, the last played chord or the loading flags; each of
    key, mode, octave, inversion and bass offset (with the bass memory)
    changes only while its own control is selected; with no control
    selected the dock state is unchanged and, provided the keyboard ref
    is set, the press is passed on as [adjustLastChordType] in the same
    direction, which is the only case in which the keyboard is called. *)
Theorem plus_minus_touch_only_selected_control
  (direction : Direction) (r : bool) (d : DockState) :
  let d' := fst (plusMinus direction r d) in
  selectedControl d' = selectedControl d
  ∧ selectedSound d' = selectedSound d
  ∧ currentChord d' = currentChord d
  ∧ useFlats d' = useFlats d
  ∧ lastPlayedChord d' = lastPlayedChord d
  ∧ isSoundWindowSelected d' = isSoundWindowSelected d
  ∧ isLoadingSound d' = isLoadingSound d
  ∧ (selectedControl d ≠ Some ctlKey → selectedKey d' = selectedKey d)
  ∧ (selectedControl d ≠ Some ctlMode → mode d' = mode d)
  ∧ (selectedControl d ≠ Some ctlOctave → octave d' = octave d)
  ∧ (selectedControl d ≠ Some ctlInversion → inversion d' = inversion d)
  ∧ (selectedControl d ≠ Some ctlBass →
     selectedBassOffset d' = selectedBassOffset d
     ∧ bassOffsetMap d' = bassOffsetMap d)
  ∧ (selectedControl d = None → d' = d)
  ∧ snd (plusMinus direction r d)
    = if bool_decide (selectedControl d = None) && r
      then [callAdjustLastChordType direction] else [].
Proof.
  destruct d as [key m oct inv sound chord ctl flats bass lpc bmap sw ld].
  cbv zeta. unfold plusMinus, handlePlus, handleMinus, stepBass.
  destruct direction, ctl as [[]|], r;
    cbv beta; cbn [selectedControl lastPlayedChord];
    try destruct (bool_decide (lpc = ""));
    repeat split; try reflexivity;
    try (intros Hctl; first [reflexivity | exfalso; apply Hctl; reflexivity
                             | discriminate Hctl]);
    match goal with
    | H : ?x ≠ ?x |- _ => exfalso; apply H; reflexivity
    end.
Qed.

(** X16.  The dock remembers the bass offset per chord.  A [+] or [-]
    press with the bass control selected and a last played chord stores
    the newly selected offset under that chord's name and touches no
    other entry of the memory; when the bass control is selected again
    later with the same last played chord and that memory, the stored
    offset is selected, whatever offset was selected in between. *)
Theorem bass_offset_is_remembered
  (direction : Direction) (r : bool) (d : DockState) :
  selectedControl d = Some ctlBass → lastPlayedChord d ≠ "" →
  let d1 := fst (plusMinus direction r d) in
  bassOffsetMap d1 !! lastPlayedChord d = Some (selectedBassOffset d1)
  ∧ (∀ c, c ≠ lastPlayedChord d → bassOffsetMap d1 !! c = bassOffsetMap d !! c)
  ∧ ∀ d2, selectedControl d2 ≠ Some ctlBass →
          lastPlayedChord d2 = lastPlayedChord d →
          bassOffsetMap d2 = bassOffsetMap d1 →
          selectedBassOffset (handleBassPress d2) = selectedBassOffset d1
          ∧ selectedControl (handleBassPress d2) = Some ctlBass.
Proof.
  intros Hctl Hlast. cbv zeta.
  assert (∀ i,
    let d1 := stepBass i d in
    bassOffsetMap d1 !! lastPlayedChord d = Some (selectedBassOffset d1)
    ∧ (∀ c, c ≠ lastPlayedChord d → bassOffsetMap d1 !! c = bassOffsetMap d !! c))
    as Hstep.
  { intros i. cbv zeta. unfold stepBass.
    rewrite (bool_decide_eq_false_2 _ Hlast).
    cbn [bassOffsetMap selectedBassOffset setBassOffsetMap setSelectedBassOffset].
    split; [by rewrite lookup_insert_eq|].
    intros c Hc. by rewrite lookup_insert_ne. }
  assert (∃ i, fst (plusMinus direction r d) = stepBass i d) as [i ->].
  { destruct direction; unfold plusMinus, handlePlus, handleMinus;
      rewrite Hctl; eexists; reflexivity. }
  destruct (Hstep i) as [Hstored Hothers].
  split; [exact Hstored|]. split; [exact Hothers|].
  intros d2 Hctl2 Hlast2 Hmap2. unfold handleBassPress.
  rewrite (bool_decide_eq_false_2 _ Hctl2).
  rewrite Hlast2, (bool_decide_eq_false_2 _ Hlast), Hmap2, Hstored.
  split; reflexivity.
Qed.

(** "Dm7" played, bass selected, [+] pressed (BASS becomes +1); then the
    bass control is deselected, the offset changed elsewhere, and on
    selecting bass again +1 is back. *)
Lemma bass_offset_is_remembered_witness :
  let d := setSelectedControl (Some ctlBass)
             (setLastPlayedChord "Dm7" initialDock) in
  let d1 := fst (handlePlus true d) in
  let d2 := setSelectedBassOffset OFF (handleBassPress d1) in
  selectedControl d = Some ctlBass ∧ lastPlayedChord d ≠ ""
  ∧ selectedBassOffset d1 = plus1
  ∧ selectedBassOffset d2 = OFF
  ∧ selectedBassOffset (handleBassPress d2) = plus1.
Proof.
  intros d d1 d2.
  assert (selectedControl d = Some ctlBass) as Hctl by reflexivity.
  assert (lastPlayedChord d ≠ "") as Hlast by discriminate.
  split; [exact Hctl|]. split; [exact Hlast|].
  split; [reflexivity|]. split; [reflexivity|].
  apply (bass_offset_is_remembered up true d Hctl Hlast);
    [discriminate | reflexivity | reflexivity].
Defined.



(** X18.  The sound window: the first press only selects the window and
    keeps the sound; every later press moves to another sound, and six of
    them come back to the sound one started from.  Every press raises the
    loading flag, the timer callback lowers it and changes nothing else,
    and once the window is selected a sound press never deselects it. *)
Theorem sound_press_cycles (d : DockState) :
  (isSoundWindowSelected d = false →
   selectedSound (handleSoundPress d) = selectedSound d)
  ∧ (isSoundWindowSelected d = true →
     selectedSound (handleSoundPress d) ≠ selectedSound d
     ∧ selectedSound (Nat.iter 6 handleSoundPress d) = selectedSound d)
  ∧ isSoundWindowSelected (handleSoundPress d) = true
  ∧ isLoadingSound (handleSoundPress d) = true
  ∧ soundLoaded (handleSoundPress d)
    = setIsLoadingSound false (handleSoundPress d)
  ∧ isLoadingSound (soundLoaded (handleSoundPress d)) = false
  ∧ selectedSound (soundLoaded (handleSoundPress d))
    = selectedSound (handleSoundPress d).
Proof.
  destruct d as [key m oct inv sound chord ctl flats bass lpc bmap sw ld].
  cbn [isSoundWindowSelected].
  destruct sw, sound; repeat split; try discriminate; try reflexivity;
    intros Hsw; try discriminate Hsw; reflexivity.
Qed.

End DockProps.
